(** * puzzleGame: the grid engine of [src/puzzleGame/main.cpp]

    A shallow embedding of the board ([Map]), of its chain scan
    ([calculateObjectLength]) and of its update ([moveOnlyPerson], [move]),
    followed by the properties of one move and of sequences of moves. *)

From Stdlib Require Import ZArith Lia Bool Ascii.
From stdpp Require Import base decidable option list.
From Equations Require Import Equations.
From Equations.Prop Require Import Logic.

Local Open Scope Z_scope.

(** ** Machine integers

    [int] is a 32-bit signed integer and [size_t] a 64-bit unsigned one.
    Values are carried as [Z]; every arithmetic result is brought back into
    the range of its type.  Signed overflow is undefined in C++: the
    two's-complement result is written out here, and [ahead_plain] and
    [run_bound] below show that no operation of a move reaches it from a
    position on the board. *)

Definition to_int (z : Z) : Z := (z + 2 ^ 31) mod 2 ^ 32 - 2 ^ 31.

Definition to_size_t (z : Z) : Z := z mod 2 ^ 64.

(** [size_t constexpr Width = 6; size_t constexpr Height = 3;] *)
Definition Width : Z := 6.
Definition Height : Z := 3.

(** ** [struct Vec2D] *)

Record Vec2D : Type := mkVec2D { x : Z; y : Z }.

#[global] Instance Vec2D_eq_dec : EqDecision Vec2D.
Proof. solve_decision. Defined.

(** [friend operator *(int factor, Vec2D self)] *)
Definition Vec2D_scale (factor : Z) (self : Vec2D) : Vec2D :=
  mkVec2D (to_int (factor * x self)) (to_int (factor * y self)).

(** [operator *(int factor) const]: [return factor * *this;] *)
Definition Vec2D_mul (self : Vec2D) (factor : Z) : Vec2D :=
  Vec2D_scale factor self.

(** [operator +(Vec2D other) const] *)
Definition Vec2D_add (self other : Vec2D) : Vec2D :=
  mkVec2D (to_int (x self + x other)) (to_int (y self + y other)).

(** [operator -() const]: [return *this * -1;] *)
Definition Vec2D_neg (self : Vec2D) : Vec2D := Vec2D_mul self (-1).

(** [operator -(Vec2D other) const]: [return *this + -other;] *)
Definition Vec2D_sub (self other : Vec2D) : Vec2D :=
  Vec2D_add self (Vec2D_neg other).

Declare Scope vec_scope.
Delimit Scope vec_scope with vec.
Bind Scope vec_scope with Vec2D.
Infix "+" := Vec2D_add : vec_scope.
Infix "*" := Vec2D_mul : vec_scope.

(** ** [enum Flag] and its bit operators

    The enumerators are the masks [1 << 0], [1 << 1], [1 << 2]; a cell holds
    any combination of them, so a flag value is the underlying integer. *)

Module Flag.
Definition t : Type := Z.

Definition None : t := 0.
Definition Object : t := Z.shiftl 1 0.
Definition Person : t := Z.shiftl 1 1.
Definition Goal : t := Z.shiftl 1 2.

(** [operator ~], [operator &], [operator |] *)
Definition not (self : t) : t := Z.lnot self.
Definition and (left right : t) : t := Z.land left right.
Definition or (left right : t) : t := Z.lor left right.

(** [self &= other], [self |= other] as the new value of [self] *)
Definition and_assign (other self : t) : t := and self other.
Definition or_assign (other self : t) : t := or self other.

(** The truth value of [flag & mask] in a condition. *)
Definition test (flag mask : t) : bool := negb (and flag mask =? 0).
End Flag.

(** ** [enum Direction] and [dirToVec]

    The enumeration is closed: the [default: throw] branch of the source
    has no value that reaches it. *)

Inductive Direction : Type := Up | Down | Left | Right.

#[global] Instance Direction_eq_dec : EqDecision Direction.
Proof. solve_decision. Defined.

Definition dirToVec (dir : Direction) : Vec2D :=
  match dir with
  | Up => mkVec2D 0 (-1)
  | Down => mkVec2D 0 1
  | Left => mkVec2D (-1) 0
  | Right => mkVec2D 1 0
  end.

(** ** [class Map] *)

Record Map : Type := mkMap {
  _person_pos : Vec2D;
  _map : list Flag.t
}.

(** The subscript of [at]: [pos.y * Width + pos.x], computed in [size_t]. *)
Definition index (pos : Vec2D) : Z :=
  to_size_t (to_size_t (to_size_t (y pos) * Width) + to_size_t (x pos)).

Definition slot (pos : Vec2D) : nat := Z.to_nat (index pos).

(** [at(pos)] read as a value.  [std::array::operator[]] does not check its
    subscript; outside the array the model reads [Flag.None]. *)
Definition at_ (m : list Flag.t) (pos : Vec2D) : Flag.t :=
  default Flag.None (m !! slot pos).

(** [at(pos) op= ...]: the referenced element is replaced by [f] of itself.
    Outside the array the model writes nothing. *)
Definition at_assign (f : Flag.t -> Flag.t) (m : list Flag.t) (pos : Vec2D)
  : list Flag.t :=
  alter f (slot pos) m.

(** The test of [calculateObjectLength]:
    [next.x < 0 || Width <= next.x || next.y < 0 || Height <= next.y],
    the comparisons with [Width] and [Height] being made in [size_t]. *)
Definition out_of_range (next : Vec2D) : bool :=
  (x next <? 0) || (Width <=? to_size_t (x next))
  || (y next <? 0) || (Height <=? to_size_t (y next)).

(** The cells of the board, [[0,Width) x [0,Height)]. *)
Definition on_board (p : Vec2D) : Prop :=
  (0 <= x p < Width) /\ (0 <= y p < Height).

#[global] Instance on_board_dec (p : Vec2D) : Decision (on_board p).
Proof. unfold on_board. apply _. Defined.

(** The values of an [int]. *)
Definition is_int (z : Z) : Prop := - 2 ^ 31 <= z < 2 ^ 31.

(** How far [pos] is from the edge it heads to; the measure of the scan. *)
Definition room (pos : Vec2D) (dir : Direction) : nat :=
  if decide (on_board pos)
  then match dir with
       | Up => Z.to_nat (y pos)
       | Down => Z.to_nat (Height - 1 - y pos)
       | Left => Z.to_nat (x pos)
       | Right => Z.to_nat (Width - 1 - x pos)
       end
  else Z.to_nat (Width + Height).

(** *** Termination of the scan

    Each nested call is made on a cell of the board, one step closer to the
    edge it heads to. *)

Lemma to_int_range (z : Z) : is_int (to_int z).
Proof.
  unfold is_int, to_int.
  pose proof (Z.mod_pos_bound (z + 2 ^ 31) (2 ^ 32) ltac:(lia)). lia.
Qed.

Lemma to_int_small (z : Z) : is_int z -> to_int z = z.
Proof. intros Hz. unfold is_int, to_int in *. rewrite Z.mod_small; lia. Qed.

Lemma to_size_t_small (z : Z) : 0 <= z < 2 ^ 64 -> to_size_t z = z.
Proof. intros Hz. unfold to_size_t. apply Z.mod_small. lia. Qed.

(** On [int] coordinates the test of the source is the complement of
    [on_board]: a negative coordinate is caught before its conversion to
    [size_t], a non-negative one is converted to itself. *)
Lemma out_of_range_false (p : Vec2D) :
  is_int (x p) -> is_int (y p) ->
  out_of_range p = false <-> on_board p.
Proof.
  unfold out_of_range, on_board, is_int, Width, Height. intros Hx Hy. split.
  - intros H. repeat (apply orb_false_iff in H; destruct H as [H ?]).
    rewrite !to_size_t_small in * by lia. lia.
  - intros [Hx' Hy']. rewrite !to_size_t_small by lia. lia.
Qed.

Lemma Vec2D_add_int (p q : Vec2D) :
  is_int (x (p + q)%vec) /\ is_int (y (p + q)%vec).
Proof. split; apply to_int_range. Qed.

Lemma out_of_range_add (p q : Vec2D) :
  out_of_range (p + q)%vec = false <-> on_board (p + q)%vec.
Proof. apply out_of_range_false; apply Vec2D_add_int. Qed.

Lemma room_step (pos : Vec2D) (dir : Direction) :
  out_of_range (pos + dirToVec dir)%vec = false ->
  (room (pos + dirToVec dir)%vec dir < room pos dir)%nat.
Proof.
  intros Hn. apply out_of_range_add in Hn. unfold room.
  rewrite (decide_True _ _ Hn).
  destruct (decide (on_board pos)) as [Hp|Hp].
  - unfold on_board, Width, Height in *.
    destruct dir; cbn [x y dirToVec Vec2D_add] in *;
      rewrite ?Z.add_0_r in *;
      rewrite !to_int_small in * by (unfold is_int; lia); lia.
  - unfold on_board, Width, Height in *.
    destruct dir; cbn [x y dirToVec Vec2D_add] in *; lia.
Qed.

(** [int Map::calculateObjectLength(Vec2D pos, Direction dir)] *)
Equations calculateObjectLength (m : list Flag.t) (pos : Vec2D)
  (dir : Direction) : Z by wf (room pos dir) lt :=
  calculateObjectLength m pos dir
    with inspect (out_of_range (pos + dirToVec dir)%vec) := {
    | exist _ true _ => -1
    | exist _ false Hnext
        with Flag.test (at_ m (pos + dirToVec dir)%vec) Flag.Object := {
        | true =>
            let prev := calculateObjectLength m (pos + dirToVec dir)%vec dir in
            if prev <? 0 then prev else to_int (prev + 1)
        | false => 0 } }.
Next Obligation. intros. apply room_step. assumption. Qed.

(** [void Map::moveOnlyPerson(Direction dir)] *)
Definition moveOnlyPerson (s : Map) (dir : Direction) : Map :=
  let m1 := at_assign (Flag.and_assign (Flag.not Flag.Person))
              (_map s) (_person_pos s) in
  let pos := (_person_pos s + dirToVec dir)%vec in
  let m2 := at_assign (Flag.and_assign (Flag.not Flag.Object)) m1 pos in
  let m3 := at_assign (Flag.or_assign Flag.Person) m2 pos in
  mkMap pos m3.

(** [void Map::move(Direction dir)] *)
Definition move (s : Map) (dir : Direction) : Map :=
  let num := calculateObjectLength (_map s) (_person_pos s) dir in
  if num <? 0 then s
  else
    let s1 := moveOnlyPerson s dir in
    if negb (num =? 0)
    then mkMap (_person_pos s1)
           (at_assign (Flag.or_assign Flag.Object) (_map s1)
              (_person_pos s1 + dirToVec dir * num)%vec)
    else s1.

(** The default member initialisers of [Map]. *)
Definition Map_init : Map :=
  let None := Flag.None in
  let Object := Flag.Object in
  let Person := Flag.Person in
  let Goal := Flag.Goal in
  mkMap (mkVec2D 4 0)
    [ None; Goal;   Goal;   None; Person; None;
      None; Object; Object; None; None;   None;
      None; None;   None;   None; None;   None ].

(** A session: one call of [move] per decoded key, in order. *)
Definition moves (s : Map) (dirs : list Direction) : Map :=
  foldl move s dirs.

(** ** The same code with its accesses recorded

    Every evaluation of [at(pos)] is recorded with what is done through the
    returned reference, and the scan also counts its nested calls. *)

Inductive access : Type :=
| Read (pos : Vec2D)
| AndAssign (pos : Vec2D) (other : Flag.t)
| OrAssign (pos : Vec2D) (other : Flag.t).

Definition access_pos (a : access) : Vec2D :=
  match a with
  | Read pos | AndAssign pos _ | OrAssign pos _ => pos
  end.

Definition is_write (a : access) : bool :=
  match a with
  | Read _ => false
  | AndAssign _ _ | OrAssign _ _ => true
  end.

Record scan : Type := mkScan {
  result : Z;          (* the returned [int] *)
  depth : nat;         (* nested calls below this one *)
  reads : list access  (* the accesses, in order *)
}.

Equations calculateObjectLength_traced (m : list Flag.t) (pos : Vec2D)
  (dir : Direction) : scan by wf (room pos dir) lt :=
  calculateObjectLength_traced m pos dir
    with inspect (out_of_range (pos + dirToVec dir)%vec) := {
    | exist _ true _ => mkScan (-1) 0 []
    | exist _ false Hnext
        with Flag.test (at_ m (pos + dirToVec dir)%vec) Flag.Object := {
        | true =>
            let prev :=
              calculateObjectLength_traced m (pos + dirToVec dir)%vec dir in
            mkScan
              (if result prev <? 0 then result prev
               else to_int (result prev + 1))
              (S (depth prev))
              (Read (pos + dirToVec dir)%vec :: reads prev)
        | false => mkScan 0 0 [Read (pos + dirToVec dir)%vec] } }.
Next Obligation. intros. apply room_step. assumption. Qed.

Definition moveOnlyPerson_traced (s : Map) (dir : Direction)
  : Map * list access :=
  let pos := (_person_pos s + dirToVec dir)%vec in
  (moveOnlyPerson s dir,
   [ AndAssign (_person_pos s) (Flag.not Flag.Person);
     AndAssign pos (Flag.not Flag.Object);
     OrAssign pos Flag.Person ]).

Definition move_traced (s : Map) (dir : Direction) : Map * list access :=
  let sc := calculateObjectLength_traced (_map s) (_person_pos s) dir in
  let num := result sc in
  if num <? 0 then (s, reads sc)
  else
    let '(s1, log1) := moveOnlyPerson_traced s dir in
    if negb (num =? 0)
    then
      let target := (_person_pos s1 + dirToVec dir * num)%vec in
      (mkMap (_person_pos s1)
         (at_assign (Flag.or_assign Flag.Object) (_map s1) target),
       reads sc ++ log1 ++ [OrAssign target Flag.Object])
    else (s1, reads sc ++ log1).

(** ** Vocabulary of the properties *)

(** The flags of the cell at [c]. *)
Definition cell (s : Map) (c : Vec2D) : Flag.t := at_ (_map s) c.

Definition has_object (f : Flag.t) : bool := Flag.test f Flag.Object.
Definition has_actor (f : Flag.t) : bool := Flag.test f Flag.Person.
Definition is_goal (f : Flag.t) : bool := Flag.test f Flag.Goal.

(** The cell [n] steps from [p] in direction [dir], as [move] writes it. *)
Definition ahead (p : Vec2D) (dir : Direction) (n : Z) : Vec2D :=
  (p + dirToVec dir * n)%vec.

(** A board has [Width * Height] cells and its actor stands on one. *)
Definition well_formed (s : Map) : Prop :=
  length (_map s) = Z.to_nat (Width * Height) /\ on_board (_person_pos s).

(** The [k] cells ahead of [p] are on the board and hold an object each. *)
Definition run (m : list Flag.t) (p : Vec2D) (dir : Direction) (k : nat)
  : Prop :=
  forall i : nat, (1 <= i <= k)%nat ->
    on_board (ahead p dir (Z.of_nat i)) /\
    has_object (at_ m (ahead p dir (Z.of_nat i))) = true.

(** The cell at [c] is on the board and holds no object. *)
Definition free (m : list Flag.t) (c : Vec2D) : Prop :=
  on_board c /\ has_object (at_ m c) = false.

(** The number of elements that hold an object, and of cells of a board. *)
Definition count_objects (m : list Flag.t) : nat :=
  length (filter (fun f => has_object f = true) m).

Definition object_count (s : Map) : nat := count_objects (_map s).

(** [1] for [true]: the share of one cell in the count. *)
Definition one_if (b : bool) : nat := if b then 1 else 0.

(** Exactly one cell holds the actor, the one at [_person_pos]. *)
Definition actor_inv (s : Map) : Prop :=
  well_formed s /\
  forall c, on_board c -> has_actor (cell s c) = true <-> c = _person_pos s.

(** The first [n] cells ahead of [p], nearest first. *)
Definition cells_ahead (p : Vec2D) (dir : Direction) (n : nat) : list Vec2D :=
  (fun i : nat => ahead p dir (Z.of_nat i)) <$> seq 1 n.

(** What the scan found: a run of [depth] objects, then either a free cell
    (the count is the length of the run) or the edge of the board (the count
    is [-1]); it read exactly the cells it passed the bounds test for. *)
Definition scan_outcome (m : list Flag.t) (pos : Vec2D) (dir : Direction)
  (sc : scan) : Prop :=
  run m pos dir (depth sc) /\
  ((result sc = Z.of_nat (depth sc) /\
    free m (ahead pos dir (Z.of_nat (S (depth sc)))) /\
    reads sc = Read <$> cells_ahead pos dir (S (depth sc)))
   \/
   (result sc = -1 /\
    ~ on_board (ahead pos dir (Z.of_nat (S (depth sc)))) /\
    reads sc = Read <$> cells_ahead pos dir (depth sc))).

(** The assignments of an accepted move, in order. *)
Definition commit_log (s : Map) (dir : Direction) : list access :=
  let p := _person_pos s in
  let q := (p + dirToVec dir)%vec in
  let n := calculateObjectLength (_map s) p dir in
  [ AndAssign p (Flag.not Flag.Person);
    AndAssign q (Flag.not Flag.Object);
    OrAssign q Flag.Person ]
  ++ (if n =? 0 then [] else [OrAssign (ahead p dir (n + 1)) Flag.Object]).

(** The actor's cell holds no object. *)
Definition actor_clear (s : Map) : Prop :=
  has_object (cell s (_person_pos s)) = false.

(** The eighteen cells, row by row. *)
Definition cells : list Vec2D :=
  row ← seqZ 0 Height; col ← seqZ 0 Width; [mkVec2D col row].

#[global] Instance well_formed_dec (s : Map) : Decision (well_formed s).
Proof. unfold well_formed. apply _. Defined.

#[global] Instance access_eq_dec : EqDecision access.
Proof. solve_decision. Defined.

(** Closes a decidable statement about given boards by evaluation. *)
Ltac by_compute :=
  match goal with
  | |- ?P => apply (bool_decide_unpack P); vm_compute; exact I
  end.

(** Boards on which the theorems are run. *)

(** The actor at (3,1) with the two objects of the layout on its left. *)
Definition board_pushing : Map := moves Map_init [Left; Down].

(** The same after one push: the objects at (0,1) and (1,1), the actor at
    (2,1). *)
Definition board_blocked : Map := moves Map_init [Left; Down; Left].

(** The actor at (2,0), above the object at (2,1). *)
Definition board_above : Map := moves Map_init [Left; Left].

(** * Lemmas *)

(** ** Integers and vectors *)

(** [to_int] is reduction modulo [2 ^ 32]: it may be dropped under a sum. *)
Lemma to_int_add_l (a b : Z) : to_int (to_int a + b) = to_int (a + b).
Proof.
  unfold to_int. f_equal.
  replace ((a + 2 ^ 31) mod 2 ^ 32 - 2 ^ 31 + b + 2 ^ 31)
    with ((a + 2 ^ 31) mod 2 ^ 32 + b) by ring.
  rewrite Zplus_mod_idemp_l. f_equal. ring.
Qed.

Lemma to_int_add_r (a b : Z) : to_int (a + to_int b) = to_int (a + b).
Proof. rewrite (Z.add_comm a), to_int_add_l. f_equal. ring. Qed.

(** Steps add up, whatever the position. *)
Lemma ahead_1 (p : Vec2D) (dir : Direction) :
  ahead p dir 1 = (p + dirToVec dir)%vec.
Proof.
  unfold ahead, Vec2D_add, Vec2D_mul, Vec2D_scale. cbn [x y].
  rewrite !to_int_add_r, !Z.mul_1_l. reflexivity.
Qed.

Lemma ahead_succ (p : Vec2D) (dir : Direction) (n : Z) :
  ahead p dir (n + 1) = ahead (p + dirToVec dir)%vec dir n.
Proof.
  unfold ahead, Vec2D_add, Vec2D_mul, Vec2D_scale. cbn [x y].
  rewrite !to_int_add_l, !to_int_add_r. f_equal; f_equal; ring.
Qed.

(** Near the board nothing wraps: [ahead] is plain translation. *)
Lemma ahead_plain (p : Vec2D) (dir : Direction) (n : Z) :
  on_board p -> -8 <= n <= 8 ->
  ahead p dir n =
  mkVec2D (x p + n * x (dirToVec dir)) (y p + n * y (dirToVec dir)).
Proof.
  unfold on_board, Width, Height. intros [Hx Hy] Hn.
  unfold ahead, Vec2D_add, Vec2D_mul, Vec2D_scale. cbn [x y].
  rewrite !to_int_add_r, !(Z.mul_comm n).
  destruct dir; cbn [x y dirToVec];
    rewrite !to_int_small by (unfold is_int; lia); reflexivity.
Qed.

Lemma ahead_0 (p : Vec2D) (dir : Direction) : on_board p -> ahead p dir 0 = p.
Proof.
  intros Hp. rewrite ahead_plain by (assumption || lia).
  destruct p; cbn [x y]. f_equal; lia.
Qed.

Lemma ahead_ne (p : Vec2D) (dir : Direction) (i j : Z) :
  on_board p -> -8 <= i <= 8 -> -8 <= j <= 8 -> i <> j ->
  ahead p dir i <> ahead p dir j.
Proof.
  intros Hp Hi Hj Hne. rewrite !ahead_plain by assumption.
  destruct dir; cbn [x y dirToVec]; intros [=]; lia.
Qed.

(** Seven steps in one direction leave the board from any of its cells. *)
Lemma ahead_leaves (p : Vec2D) (dir : Direction) (n : Z) :
  on_board p -> 6 <= n <= 8 -> ~ on_board (ahead p dir n).
Proof.
  intros Hp Hn. rewrite ahead_plain by (assumption || lia).
  unfold on_board, Width, Height in *.
  destruct dir; cbn [x y dirToVec]; lia.
Qed.

(** ** Flags, bit by bit *)

(** Testing against the mask [1 << k] reads bit [k]. *)
Lemma test_bit (f : Flag.t) (k : Z) :
  0 <= k -> Flag.test f (Z.shiftl 1 k) = Z.testbit f k.
Proof.
  intros Hk. unfold Flag.test, Flag.and. rewrite Z.shiftl_1_l.
  destruct (Z.testbit f k) eqn:Hb.
  - apply negb_true_iff, Z.eqb_neq. intros H0.
    assert (Hk' : Z.testbit (Z.land f (2 ^ k)) k = true).
    { rewrite Z.land_spec, Hb, Z.pow2_bits_true by lia. reflexivity. }
    rewrite H0, Z.bits_0 in Hk'. discriminate.
  - apply negb_false_iff, Z.eqb_eq, Z.bits_inj'. intros n Hn.
    rewrite Z.land_spec, Z.bits_0, Z.pow2_bits_eqb by lia.
    destruct (Z.eqb_spec k n) as [->|]; [rewrite Hb|]; auto using andb_false_r.
Qed.

Lemma test_clear (f : Flag.t) (j k : Z) :
  0 <= j -> 0 <= k ->
  Flag.test (Flag.and_assign (Flag.not (Z.shiftl 1 j)) f) (Z.shiftl 1 k)
  = Flag.test f (Z.shiftl 1 k) && negb (j =? k).
Proof.
  intros Hj Hk. rewrite !test_bit by assumption.
  unfold Flag.and_assign, Flag.and, Flag.not.
  rewrite Z.land_spec, Z.lnot_spec, Z.shiftl_1_l, Z.pow2_bits_eqb by lia.
  reflexivity.
Qed.

Lemma test_set (f : Flag.t) (j k : Z) :
  0 <= j -> 0 <= k ->
  Flag.test (Flag.or_assign (Z.shiftl 1 j) f) (Z.shiftl 1 k)
  = Flag.test f (Z.shiftl 1 k) || (j =? k).
Proof.
  intros Hj Hk. rewrite !test_bit by assumption.
  unfold Flag.or_assign, Flag.or.
  rewrite Z.lor_spec, Z.shiftl_1_l, Z.pow2_bits_eqb by lia.
  reflexivity.
Qed.

(** Clearing a bit that is clear changes nothing. *)
Lemma clear_clear (f : Flag.t) (j : Z) :
  0 <= j -> Flag.test f (Z.shiftl 1 j) = false ->
  Flag.and_assign (Flag.not (Z.shiftl 1 j)) f = f.
Proof.
  intros Hj. rewrite test_bit by assumption. intros Hb.
  unfold Flag.and_assign, Flag.and, Flag.not. apply Z.bits_inj'. intros n Hn.
  rewrite Z.land_spec, Z.lnot_spec, Z.shiftl_1_l, Z.pow2_bits_eqb by lia.
  destruct (Z.eqb_spec j n) as [->|]; [rewrite Hb|]; auto using andb_true_r.
Qed.

(** The three flags are bits 0, 1 and 2 of the element. *)
Lemma has_object_bit (f : Flag.t) : has_object f = Z.testbit f 0.
Proof. apply (test_bit f 0). lia. Qed.

Lemma has_actor_bit (f : Flag.t) : has_actor f = Z.testbit f 1.
Proof. apply (test_bit f 1). lia. Qed.

Lemma is_goal_bit (f : Flag.t) : is_goal f = Z.testbit f 2.
Proof. apply (test_bit f 2). lia. Qed.

(** What each of the four assignments of [move] does to each flag. *)

Ltac flag_bits :=
  unfold has_object, has_actor, is_goal, Flag.Object, Flag.Person, Flag.Goal;
  rewrite ?test_clear, ?test_set by lia;
  cbn [Z.eqb Pos.eqb negb];
  rewrite ?andb_true_r, ?andb_false_r, ?orb_true_r, ?orb_false_r;
  reflexivity.

Lemma clear_person_object (f : Flag.t) :
  has_object (Flag.and_assign (Flag.not Flag.Person) f) = has_object f.
Proof. flag_bits. Qed.

Lemma clear_person_actor (f : Flag.t) :
  has_actor (Flag.and_assign (Flag.not Flag.Person) f) = false.
Proof. flag_bits. Qed.

Lemma clear_person_goal (f : Flag.t) :
  is_goal (Flag.and_assign (Flag.not Flag.Person) f) = is_goal f.
Proof. flag_bits. Qed.

Lemma clear_object_object (f : Flag.t) :
  has_object (Flag.and_assign (Flag.not Flag.Object) f) = false.
Proof. flag_bits. Qed.

Lemma clear_object_actor (f : Flag.t) :
  has_actor (Flag.and_assign (Flag.not Flag.Object) f) = has_actor f.
Proof. flag_bits. Qed.

Lemma clear_object_goal (f : Flag.t) :
  is_goal (Flag.and_assign (Flag.not Flag.Object) f) = is_goal f.
Proof. flag_bits. Qed.

Lemma set_person_object (f : Flag.t) :
  has_object (Flag.or_assign Flag.Person f) = has_object f.
Proof. flag_bits. Qed.

Lemma set_person_actor (f : Flag.t) :
  has_actor (Flag.or_assign Flag.Person f) = true.
Proof. flag_bits. Qed.

Lemma set_person_goal (f : Flag.t) :
  is_goal (Flag.or_assign Flag.Person f) = is_goal f.
Proof. flag_bits. Qed.

Lemma set_object_object (f : Flag.t) :
  has_object (Flag.or_assign Flag.Object f) = true.
Proof. flag_bits. Qed.

Lemma set_object_actor (f : Flag.t) :
  has_actor (Flag.or_assign Flag.Object f) = has_actor f.
Proof. flag_bits. Qed.

Lemma set_object_goal (f : Flag.t) :
  is_goal (Flag.or_assign Flag.Object f) = is_goal f.
Proof. flag_bits. Qed.

Create Rewrite HintDb flags.

#[global] Hint Rewrite
  clear_person_object clear_person_actor clear_person_goal
  clear_object_object clear_object_actor clear_object_goal
  set_person_object set_person_actor set_person_goal
  set_object_object set_object_actor set_object_goal : flags.

(** ** The array behind [at] *)

Lemma index_on_board (c : Vec2D) :
  on_board c -> index c = y c * Width + x c.
Proof.
  unfold on_board, index, Width, Height. intros [Hx Hy].
  rewrite (to_size_t_small (y c)), (to_size_t_small (x c)) by lia.
  rewrite (to_size_t_small (y c * 6)) by lia.
  apply to_size_t_small. lia.
Qed.

(** A cell of the board is an element of the array. *)
Lemma slot_lt (c : Vec2D) :
  on_board c -> (slot c < Z.to_nat (Width * Height))%nat.
Proof.
  intros Hc. unfold slot. rewrite index_on_board by assumption.
  unfold on_board, Width, Height in *. lia.
Qed.

(** Two cells of the board share no element. *)
Lemma slot_inj (c c' : Vec2D) :
  on_board c -> on_board c' -> slot c = slot c' -> c = c'.
Proof.
  intros Hc Hc'. unfold slot. rewrite !index_on_board by assumption.
  unfold on_board, Width, Height in *. destruct c, c'; cbn [x y] in *.
  intros Heq. f_equal; lia.
Qed.

Lemma length_at_assign (f : Flag.t -> Flag.t) (m : list Flag.t) (c : Vec2D) :
  length (at_assign f m c) = length m.
Proof. apply length_alter. Qed.

Lemma at_assign_same (f : Flag.t -> Flag.t) (m : list Flag.t) (c : Vec2D) :
  length m = Z.to_nat (Width * Height) -> on_board c ->
  at_ (at_assign f m c) c = f (at_ m c).
Proof.
  intros Hlen Hc. unfold at_, at_assign.
  rewrite list_lookup_alter_eq.
  destruct (lookup_lt_is_Some_2 m (slot c)) as [v Hv].
  { rewrite Hlen. apply slot_lt, Hc. }
  rewrite Hv. reflexivity.
Qed.

Lemma at_assign_other (f : Flag.t -> Flag.t) (m : list Flag.t)
  (c c' : Vec2D) :
  on_board c -> on_board c' -> c' <> c ->
  at_ (at_assign f m c) c' = at_ m c'.
Proof.
  intros Hc Hc' Hne. unfold at_, at_assign.
  rewrite list_lookup_alter_ne; [reflexivity|].
  intros Heq. apply Hne. symmetry. apply slot_inj; assumption.
Qed.

Lemma at_assign_read (f : Flag.t -> Flag.t) (m : list Flag.t)
  (c c' : Vec2D) :
  length m = Z.to_nat (Width * Height) -> on_board c -> on_board c' ->
  at_ (at_assign f m c) c' = if decide (c' = c) then f (at_ m c') else at_ m c'.
Proof.
  intros Hlen Hc Hc'. destruct (decide (c' = c)) as [->|Hne].
  - apply at_assign_same; assumption.
  - apply at_assign_other; assumption.
Qed.

(** An assignment that keeps a flag keeps it in every element, whatever the
    subscript. *)
Lemma at_assign_keeps (P : Flag.t -> bool) (f : Flag.t -> Flag.t)
  (m : list Flag.t) (c c' : Vec2D) :
  (forall v, P (f v) = P v) ->
  P (at_ (at_assign f m c) c') = P (at_ m c').
Proof.
  intros Hf. unfold at_, at_assign.
  destruct (decide (slot c = slot c')) as [Heq|Hne].
  - rewrite Heq, list_lookup_alter_eq.
    destruct (m !! slot c'); cbn; auto.
  - rewrite list_lookup_alter_ne by assumption. reflexivity.
Qed.

(** ** The scan *)

(** The body of [calculateObjectLength], as written in the source. *)
Lemma calculateObjectLength_body (m : list Flag.t) (pos : Vec2D)
  (dir : Direction) :
  calculateObjectLength m pos dir =
  let next := (pos + dirToVec dir)%vec in
  if out_of_range next then -1
  else if Flag.test (at_ m next) Flag.Object
       then let prev := calculateObjectLength m next dir in
            if prev <? 0 then prev else to_int (prev + 1)
       else 0.
Proof.
  cbv zeta. funelim (calculateObjectLength m pos dir);
    repeat match goal with
      | H : _ = true |- _ => rewrite H
      | H : _ = false |- _ => rewrite H
      end; reflexivity.
Qed.

Lemma calculateObjectLength_traced_body (m : list Flag.t) (pos : Vec2D)
  (dir : Direction) :
  calculateObjectLength_traced m pos dir =
  let next := (pos + dirToVec dir)%vec in
  if out_of_range next then mkScan (-1) 0 []
  else if Flag.test (at_ m next) Flag.Object
       then let prev := calculateObjectLength_traced m next dir in
            mkScan
              (if result prev <? 0 then result prev
               else to_int (result prev + 1))
              (S (depth prev)) (Read next :: reads prev)
       else mkScan 0 0 [Read next].
Proof.
  cbv zeta. funelim (calculateObjectLength_traced m pos dir);
    repeat match goal with
      | H : _ = true |- _ => rewrite H
      | H : _ = false |- _ => rewrite H
      end; reflexivity.
Qed.

(** Induction along the scan: a property holds at [pos] as soon as it holds
    at the next cell whenever that cell passes the bounds test. *)
Lemma scan_ind (dir : Direction) (P : Vec2D -> Prop) :
  (forall pos,
      (out_of_range (pos + dirToVec dir)%vec = false ->
       P (pos + dirToVec dir)%vec) ->
      P pos) ->
  forall pos, P pos.
Proof.
  intros Hstep pos.
  induction pos as [pos IH]
    using (well_founded_induction
             (Wf_nat.well_founded_ltof _ (fun p => room p dir))).
  apply Hstep. intros Hn. apply IH. apply room_step, Hn.
Qed.

(** Recording changes nothing: the recorded scan returns what the scan
    returns. *)
Lemma calculateObjectLength_traced_result (m : list Flag.t) (pos : Vec2D)
  (dir : Direction) :
  result (calculateObjectLength_traced m pos dir)
  = calculateObjectLength m pos dir.
Proof.
  induction pos as [pos IH] using (scan_ind dir).
  rewrite calculateObjectLength_traced_body, calculateObjectLength_body.
  cbv zeta. destruct (out_of_range _) eqn:Hn; [reflexivity|].
  destruct (Flag.test _ _); [|reflexivity].
  cbn [result]. rewrite IH by reflexivity. reflexivity.
Qed.

Lemma moveOnlyPerson_traced_result (s : Map) (dir : Direction) :
  fst (moveOnlyPerson_traced s dir) = moveOnlyPerson s dir.
Proof. reflexivity. Qed.

Lemma move_traced_result (s : Map) (dir : Direction) :
  fst (move_traced s dir) = move s dir.
Proof.
  unfold move_traced, move. cbv zeta.
  rewrite calculateObjectLength_traced_result.
  destruct (_ <? 0); [reflexivity|].
  cbn [moveOnlyPerson_traced]. destruct (negb _); reflexivity.
Qed.

Lemma ahead_S (p : Vec2D) (dir : Direction) (i : nat) :
  ahead p dir (Z.of_nat (S i)) = ahead (p + dirToVec dir)%vec dir (Z.of_nat i).
Proof. rewrite Nat2Z.inj_succ. unfold Z.succ. apply ahead_succ. Qed.

Lemma cells_ahead_S (p : Vec2D) (dir : Direction) (n : nat) :
  cells_ahead p dir (S n)
  = (p + dirToVec dir)%vec :: cells_ahead (p + dirToVec dir)%vec dir n.
Proof.
  unfold cells_ahead. cbn [seq fmap list_fmap]. f_equal.
  - apply ahead_1.
  - rewrite <- fmap_S_seq, <- list_fmap_compose.
    apply list_fmap_ext. intros _ i _. apply ahead_S.
Qed.

Lemma elem_of_cells_ahead (p : Vec2D) (dir : Direction) (n : nat) (c : Vec2D) :
  c ∈ cells_ahead p dir n <->
  exists i : nat, (1 <= i <= n)%nat /\ c = ahead p dir (Z.of_nat i).
Proof.
  unfold cells_ahead. rewrite list_elem_of_fmap. split.
  - intros (i & -> & Hi). apply elem_of_seq in Hi. exists i. split; [lia|auto].
  - intros (i & Hi & ->). exists i. split; [auto|]. apply elem_of_seq. lia.
Qed.

Lemma run_S (m : list Flag.t) (p : Vec2D) (dir : Direction) (k : nat) :
  run m p dir (S k) <->
  on_board (p + dirToVec dir)%vec /\
  has_object (at_ m (p + dirToVec dir)%vec) = true /\
  run m (p + dirToVec dir)%vec dir k.
Proof.
  unfold run. split.
  - intros Hrun. split; [|split].
    + rewrite <- ahead_1. apply (Hrun 1%nat). lia.
    + rewrite <- ahead_1. apply (Hrun 1%nat). lia.
    + intros i Hi. rewrite <- ahead_S. apply (Hrun (S i)). lia.
  - intros (Hb & Ho & Hrun) [|[|i]] Hi; [lia| |].
    + change (Z.of_nat 1) with 1. rewrite ahead_1. auto.
    + rewrite ahead_S. apply Hrun. lia.
Qed.

(** A run fits in the board. *)
Lemma run_bound (m : list Flag.t) (p : Vec2D) (dir : Direction) (k : nat) :
  run m p dir k -> (k <= 6)%nat.
Proof.
  intros Hrun. destruct (le_lt_dec k 6) as [|Hk]; [assumption|exfalso].
  destruct (Hrun 1%nat) as [H1 _]; [lia|].
  destruct (Hrun 7%nat) as [H7 _]; [lia|].
  change (Z.of_nat 1) with 1 in H1. rewrite ahead_1 in H1.
  change (Z.of_nat 7) with (6 + 1) in H7. rewrite ahead_succ in H7.
  apply (ahead_leaves _ dir 6 H1); [lia|assumption].
Qed.

Lemma scan_spec (m : list Flag.t) (pos : Vec2D) (dir : Direction) :
  scan_outcome m pos dir (calculateObjectLength_traced m pos dir).
Proof.
  induction pos as [pos IH] using (scan_ind dir).
  rewrite calculateObjectLength_traced_body. cbv zeta.
  destruct (out_of_range _) eqn:Hn.
  - unfold scan_outcome. cbn [result depth reads].
    split; [intros i Hi; lia|right].
    change (Z.of_nat 1) with 1. rewrite ahead_1. repeat split.
    intros Hb. apply out_of_range_add in Hb. congruence.
  - specialize (IH eq_refl). apply out_of_range_add in Hn.
    destruct (Flag.test _ _) eqn:Ho.
    + destruct IH as [Hrun IH]. unfold scan_outcome. cbn [result depth reads].
      assert (Hrun' : run m pos dir
                        (S (depth (calculateObjectLength_traced m
                                     (pos + dirToVec dir)%vec dir)))).
      { apply run_S. auto. }
      split; [assumption|].
      pose proof (run_bound _ _ _ _ Hrun') as Hk.
      rewrite (ahead_S pos), (cells_ahead_S pos).
      destruct IH as [(Hres & Hfree & Hreads)|(Hres & Hoff & Hreads)].
      * left. rewrite Hres, Hreads. repeat split; try apply Hfree.
        replace (Z.of_nat _ <? 0) with false by (symmetry; lia).
        rewrite to_int_small by (unfold is_int; lia). lia.
      * right. rewrite Hres, Hreads, (cells_ahead_S pos). auto.
    + unfold scan_outcome. cbn [result depth reads].
      split; [intros i Hi; lia|left]. change (Z.of_nat 1) with 1.
      rewrite ahead_1, cells_ahead_S.
      split; [reflexivity|]. split; [split; assumption|reflexivity].
Qed.

(** The outcome determines the scan: a run of [k] objects before a free
    cell is scanned to depth [k] with count [k]. *)
Lemma scan_of_free (m : list Flag.t) (p : Vec2D) (dir : Direction) (k : nat) :
  run m p dir k -> free m (ahead p dir (Z.of_nat (S k))) ->
  depth (calculateObjectLength_traced m p dir) = k /\
  result (calculateObjectLength_traced m p dir) = Z.of_nat k.
Proof.
  intros Hrun [Hb Hfree].
  destruct (scan_spec m p dir) as [Hrun' Hend].
  set (sc := calculateObjectLength_traced m p dir) in *.
  destruct (lt_eq_lt_dec (depth sc) k) as [[Hlt|Heq]|Hgt].
  - exfalso. destruct (Hrun (S (depth sc))) as [Hb' Ho']; [lia|].
    destruct Hend as [(_ & [_ Hf] & _)|(_ & Hoff & _)]; [congruence|auto].
  - destruct Hend as [(Hres & _ & _)|(_ & Hoff & _)].
    + split; congruence.
    + exfalso. apply Hoff. rewrite Heq. assumption.
  - exfalso. destruct (Hrun' (S k)) as [_ Ho']; [lia|]. congruence.
Qed.

(** A run of [k] objects that ends at the edge is scanned to depth [k] and
    rejected. *)
Lemma scan_of_edge (m : list Flag.t) (p : Vec2D) (dir : Direction) (k : nat) :
  run m p dir k -> ~ on_board (ahead p dir (Z.of_nat (S k))) ->
  depth (calculateObjectLength_traced m p dir) = k /\
  result (calculateObjectLength_traced m p dir) = -1.
Proof.
  intros Hrun Hedge.
  destruct (scan_spec m p dir) as [Hrun' Hend].
  set (sc := calculateObjectLength_traced m p dir) in *.
  destruct (lt_eq_lt_dec (depth sc) k) as [[Hlt|Heq]|Hgt].
  - exfalso. destruct (Hrun (S (depth sc))) as [Hb' Ho']; [lia|].
    destruct Hend as [(_ & [_ Hf] & _)|(_ & Hoff & _)]; [congruence|auto].
  - destruct Hend as [(_ & [Hb _] & _)|(Hres & _ & _)].
    + exfalso. apply Hedge. rewrite <- Heq. assumption.
    + split; congruence.
  - exfalso. destruct (Hrun' (S k)) as [Hb' _]; [lia|]. auto.
Qed.

(** A count that is not negative is the length of a run before a free
    cell. *)
Lemma scan_success (m : list Flag.t) (p : Vec2D) (dir : Direction) :
  0 <= calculateObjectLength m p dir ->
  exists k : nat,
    calculateObjectLength m p dir = Z.of_nat k /\
    depth (calculateObjectLength_traced m p dir) = k /\
    (k <= 6)%nat /\
    run m p dir k /\
    free m (ahead p dir (Z.of_nat (S k))) /\
    on_board (p + dirToVec dir)%vec /\
    reads (calculateObjectLength_traced m p dir)
    = Read <$> cells_ahead p dir (S k).
Proof.
  rewrite <- calculateObjectLength_traced_result. intros Hres.
  destruct (scan_spec m p dir) as [Hrun Hend].
  destruct Hend as [(Heq & Hfree & Hreads)|(Heq & _)]; [|lia].
  eexists. split; [exact Heq|]. split; [reflexivity|].
  split; [eapply run_bound, Hrun|]. split; [assumption|].
  split; [assumption|]. split; [|assumption].
  rewrite <- ahead_1.
  destruct (depth _) as [|k] eqn:Hk.
  - apply Hfree.
  - apply (Hrun 1%nat). lia.
Qed.

(** A negative count is [-1]: the run ahead ends at the edge. *)
Lemma scan_failure (m : list Flag.t) (p : Vec2D) (dir : Direction) :
  calculateObjectLength m p dir < 0 ->
  exists k : nat,
    calculateObjectLength m p dir = -1 /\
    depth (calculateObjectLength_traced m p dir) = k /\
    run m p dir k /\
    ~ on_board (ahead p dir (Z.of_nat (S k))) /\
    reads (calculateObjectLength_traced m p dir)
    = Read <$> cells_ahead p dir k.
Proof.
  rewrite <- calculateObjectLength_traced_result. intros Hres.
  destruct (scan_spec m p dir) as [Hrun Hend].
  destruct Hend as [(Heq & _)|(Heq & Hoff & Hreads)]; [lia|].
  exists (depth (calculateObjectLength_traced m p dir)). auto.
Qed.

(** The count is [-1] or the length of a run: it fits in an [int] with room
    to spare. *)
Lemma calculateObjectLength_range (m : list Flag.t) (p : Vec2D)
  (dir : Direction) :
  -1 <= calculateObjectLength m p dir <= Z.max Width Height.
Proof.
  rewrite <- calculateObjectLength_traced_result.
  destruct (scan_spec m p dir) as [Hrun [(Hres & _)|(Hres & _)]].
  - pose proof (run_bound _ _ _ _ Hrun). unfold Width, Height. lia.
  - unfold Width, Height. lia.
Qed.

(** One level of the recursion: over an object cell of the board, a count
    [K >= 0] from that cell makes [K + 1] from the cell before it. *)
Lemma calculateObjectLength_level (m : list Flag.t) (pos : Vec2D)
  (dir : Direction) (K : Z) :
  on_board (pos + dirToVec dir)%vec ->
  has_object (at_ m (pos + dirToVec dir)%vec) = true ->
  calculateObjectLength m (pos + dirToVec dir)%vec dir = K ->
  0 <= K ->
  calculateObjectLength m pos dir = K + 1.
Proof.
  intros Hb Ho HK HK0. rewrite calculateObjectLength_body. cbv zeta.
  apply out_of_range_add in Hb. rewrite Hb.
  unfold has_object in Ho. rewrite Ho, HK.
  replace (K <? 0) with false by (symmetry; lia).
  pose proof (calculateObjectLength_range m (pos + dirToVec dir)%vec dir) as Hr.
  rewrite HK in Hr. unfold Width, Height in Hr.
  apply to_int_small. unfold is_int. lia.
Qed.

(** ** One move, cell by cell *)

Lemma move_rejected (s : Map) (dir : Direction) :
  calculateObjectLength (_map s) (_person_pos s) dir < 0 -> move s dir = s.
Proof.
  intros Hn. unfold move. cbv zeta.
  replace (_ <? 0) with true by (symmetry; lia). reflexivity.
Qed.

Lemma move_person_pos (s : Map) (dir : Direction) :
  0 <= calculateObjectLength (_map s) (_person_pos s) dir ->
  _person_pos (move s dir) = (_person_pos s + dirToVec dir)%vec.
Proof.
  intros Hn. unfold move. cbv zeta.
  replace (_ <? 0) with false by (symmetry; lia).
  destruct (negb _); reflexivity.
Qed.

Lemma move_length (s : Map) (dir : Direction) :
  length (_map (move s dir)) = length (_map s).
Proof.
  unfold move. cbv zeta. destruct (_ <? 0); [reflexivity|].
  destruct (negb _); cbn [_map moveOnlyPerson];
    rewrite !length_at_assign; reflexivity.
Qed.

(** The flags of a cell after an accepted move: the three assignments of
    [moveOnlyPerson], then the one of [move] on the cell past the run. *)
Lemma move_cell (s : Map) (dir : Direction) (c : Vec2D) :
  well_formed s -> on_board c ->
  0 <= calculateObjectLength (_map s) (_person_pos s) dir ->
  cell (move s dir) c =
  let p := _person_pos s in
  let n := calculateObjectLength (_map s) p dir in
  let f1 := if decide (c = p)
            then Flag.and_assign (Flag.not Flag.Person) (cell s c)
            else cell s c in
  let f2 := if decide (c = (p + dirToVec dir)%vec)
            then Flag.or_assign Flag.Person
                   (Flag.and_assign (Flag.not Flag.Object) f1)
            else f1 in
  if decide (n <> 0 /\ c = ahead p dir (n + 1))
  then Flag.or_assign Flag.Object f2 else f2.
Proof.
  intros [Hlen Hp] Hc Hn. cbv zeta.
  destruct (scan_success _ _ _ Hn)
    as (k & Hk & _ & Hk6 & Hrun & Hfree & Hb & _).
  unfold move, cell. cbv zeta.
  replace (_ <? 0) with false by (symmetry; lia).
  rewrite ahead_succ.
  fold (ahead (_person_pos s + dirToVec dir)%vec dir
          (calculateObjectLength (_map s) (_person_pos s) dir)).
  destruct (Z.eqb_spec (calculateObjectLength (_map s) (_person_pos s) dir) 0)
    as [H0|H0]; cbn [negb _map _person_pos moveOnlyPerson].
  - rewrite decide_False by tauto.
    rewrite !at_assign_read by (rewrite ?length_at_assign; assumption).
    repeat case_decide; reflexivity.
  - assert (Ht : on_board (ahead (_person_pos s + dirToVec dir)%vec dir
              (calculateObjectLength (_map s) (_person_pos s) dir))).
    { rewrite <- ahead_succ, Hk.
      replace (Z.of_nat k + 1) with (Z.of_nat (S k)) by lia. apply Hfree. }
    rewrite !at_assign_read by (rewrite ?length_at_assign; assumption).
    repeat case_decide; try reflexivity; tauto.
Qed.

Lemma ahead_add (p : Vec2D) (dir : Direction) (i j : Z) :
  ahead (ahead p dir i) dir j = ahead p dir (i + j).
Proof.
  assert (Hmid : forall a b c,
             to_int (to_int (a + to_int b) + to_int c) = to_int (a + (b + c))).
  { intros a b c. rewrite to_int_add_l, to_int_add_r.
    replace (a + to_int b + c) with (to_int b + (a + c)) by ring.
    rewrite to_int_add_l. f_equal. ring. }
  unfold ahead, Vec2D_add, Vec2D_mul, Vec2D_scale. cbn [x y].
  rewrite !Hmid, !to_int_add_r. f_equal; f_equal; ring.
Qed.

Lemma step_ne (p : Vec2D) (dir : Direction) :
  on_board p -> (p + dirToVec dir)%vec <> p.
Proof.
  intros Hp. rewrite <- ahead_1. rewrite <- (ahead_0 p dir) at 2 by assumption.
  apply ahead_ne; (assumption || lia).
Qed.

(** The object flags after an accepted move. *)
Lemma move_objects (s : Map) (dir : Direction) (c : Vec2D) :
  well_formed s -> on_board c ->
  0 <= calculateObjectLength (_map s) (_person_pos s) dir ->
  has_object (cell (move s dir) c) =
  let p := _person_pos s in
  let n := calculateObjectLength (_map s) p dir in
  if decide (c = (p + dirToVec dir)%vec) then false
  else if decide (n <> 0 /\ c = ahead p dir (n + 1)) then true
       else has_object (cell s c).
Proof.
  intros Hwf Hc Hn. rewrite move_cell by assumption. cbv zeta.
  destruct (scan_success _ _ _ Hn) as (k & Hk & _ & Hk6 & _).
  destruct Hwf as [_ Hp].
  repeat case_decide; autorewrite with flags; try reflexivity.
  all: exfalso;
    match goal with
    | Ht : _ /\ ?c = ahead _ _ _, Hs : ?c = (_ + _)%vec |- _ =>
        destruct Ht as [Hne Ht]; rewrite Ht, <- ahead_1 in Hs; revert Hs
    end;
    apply ahead_ne; (assumption || lia).
Qed.

(** The actor flags after an accepted move. *)
Lemma move_actor (s : Map) (dir : Direction) (c : Vec2D) :
  well_formed s -> on_board c ->
  0 <= calculateObjectLength (_map s) (_person_pos s) dir ->
  has_actor (cell (move s dir) c) =
  let p := _person_pos s in
  if decide (c = (p + dirToVec dir)%vec) then true
  else if decide (c = p) then false
       else has_actor (cell s c).
Proof.
  intros Hwf Hc Hn. rewrite move_cell by assumption. cbv zeta.
  repeat case_decide; autorewrite with flags; reflexivity.
Qed.

(** No assignment of [move] touches the goal flag, of any element. *)
Lemma move_goal (s : Map) (dir : Direction) (c : Vec2D) :
  is_goal (cell (move s dir) c) = is_goal (cell s c).
Proof.
  unfold move, cell. cbv zeta. destruct (_ <? 0); [reflexivity|].
  assert (Hkeep : forall f m c',
             f = Flag.and_assign (Flag.not Flag.Person) \/
             f = Flag.and_assign (Flag.not Flag.Object) \/
             f = Flag.or_assign Flag.Person \/
             f = Flag.or_assign Flag.Object ->
             is_goal (at_ (at_assign f m c') c) = is_goal (at_ m c)).
  { intros f m c' Hf. apply at_assign_keeps. intros v.
    destruct Hf as [-> | [-> | [-> | ->]]]; autorewrite with flags;
      reflexivity. }
  destruct (negb _); cbn [_map moveOnlyPerson]; rewrite !Hkeep by tauto;
    reflexivity.
Qed.

Lemma run_from (m : list Flag.t) (p : Vec2D) (dir : Direction) (k j : nat) :
  (j <= k)%nat -> run m p dir k ->
  run m (ahead p dir (Z.of_nat j)) dir (k - j).
Proof.
  intros Hj Hrun i Hi. rewrite ahead_add, <- Nat2Z.inj_add.
  apply Hrun. lia.
Qed.

(** ** Invariants of the board *)

Lemma move_well_formed (s : Map) (dir : Direction) :
  well_formed s -> well_formed (move s dir).
Proof.
  intros [Hlen Hp]. split; [rewrite move_length; assumption|].
  destruct (Z_lt_le_dec (calculateObjectLength (_map s) (_person_pos s) dir) 0)
    as [Hn|Hn].
  - rewrite move_rejected; assumption.
  - rewrite move_person_pos by assumption.
    destruct (scan_success _ _ _ Hn) as (_ & _ & _ & _ & _ & _ & Hb & _).
    assumption.
Qed.

Lemma move_actor_inv (s : Map) (dir : Direction) :
  actor_inv s -> actor_inv (move s dir).
Proof.
  intros [Hwf Hact]. split; [apply move_well_formed; assumption|].
  destruct (Z_lt_le_dec (calculateObjectLength (_map s) (_person_pos s) dir) 0)
    as [Hn|Hn].
  - rewrite move_rejected; assumption.
  - intros c Hc. rewrite move_person_pos, move_actor by assumption. cbv zeta.
    pose proof (step_ne (_person_pos s) dir (proj2 Hwf)).
    specialize (Hact c Hc).
    repeat case_decide; split; intros; (congruence || tauto).
Qed.

Lemma move_actor_clear (s : Map) (dir : Direction) :
  well_formed s -> actor_clear s -> actor_clear (move s dir).
Proof.
  intros Hwf Hclear. unfold actor_clear.
  destruct (Z_lt_le_dec (calculateObjectLength (_map s) (_person_pos s) dir) 0)
    as [Hn|Hn].
  - rewrite move_rejected; assumption.
  - destruct (scan_success _ _ _ Hn) as (_ & _ & _ & _ & _ & _ & Hb & _).
    rewrite move_person_pos, move_objects by assumption. cbv zeta.
    rewrite decide_True; reflexivity.
Qed.

(** Invariants of [move] are invariants of sessions. *)
Lemma moves_cons (s : Map) (dir : Direction) (dirs : list Direction) :
  moves s (dir :: dirs) = moves (move s dir) dirs.
Proof. reflexivity. Qed.

Lemma moves_inv (P : Map -> Prop) (s : Map) (dirs : list Direction) :
  (forall s' dir, P s' -> P (move s' dir)) -> P s -> P (moves s dirs).
Proof.
  intros Hstep. revert s. induction dirs as [|dir dirs IH]; intros s Hs.
  - exact Hs.
  - rewrite moves_cons. apply IH, Hstep, Hs.
Qed.

(** [cells] lists every cell of the board. *)
Lemma on_board_cells (c : Vec2D) : on_board c -> c ∈ cells.
Proof.
  unfold on_board, Width, Height. destruct c as [cx cy]. cbn [x y].
  intros [Hx Hy].
  assert (Hcx : cx = 0 \/ cx = 1 \/ cx = 2 \/ cx = 3 \/ cx = 4 \/ cx = 5)
    by lia.
  assert (Hcy : cy = 0 \/ cy = 1 \/ cy = 2) by lia.
  destruct Hcx as [-> | [-> | [-> | [-> | [-> | ->]]]]];
    destruct Hcy as [-> | [-> | ->]];
    vm_compute; repeat (first [left | right]).
Qed.

(** [actor_inv] checked cell by cell on a given board. *)
Lemma actor_inv_cells (s : Map) :
  well_formed s ->
  Forall (fun c => has_actor (cell s c) = bool_decide (c = _person_pos s))
    cells ->
  actor_inv s.
Proof.
  intros Hwf Hall. split; [assumption|]. intros c Hc.
  rewrite Forall_forall in Hall.
  rewrite (Hall c (on_board_cells c Hc)). apply bool_decide_eq_true.
Qed.

Lemma Map_init_well_formed : well_formed Map_init.
Proof. split; [reflexivity|]. unfold on_board, Width, Height. cbn. lia. Qed.

Lemma Map_init_actor_inv : actor_inv Map_init.
Proof.
  apply actor_inv_cells; [apply Map_init_well_formed|].
  repeat (constructor; [vm_compute; reflexivity|]). constructor.
Qed.

Lemma Map_init_actor_clear : actor_clear Map_init.
Proof. reflexivity. Qed.

(** Every board of a session satisfies the invariants. *)
Lemma moves_Map_init_inv (dirs : list Direction) :
  actor_inv (moves Map_init dirs) /\ actor_clear (moves Map_init dirs).
Proof.
  apply (moves_inv (fun s => actor_inv s /\ actor_clear s)).
  - intros s dir [Hs1 Hs2]. split; [apply move_actor_inv; assumption|].
    apply move_actor_clear; [apply Hs1|assumption].
  - split; [apply Map_init_actor_inv|apply Map_init_actor_clear].
Qed.

(** ** Counting objects *)

Lemma object_count_eq (s : Map) : object_count s = count_objects (_map s).
Proof. reflexivity. Qed.

Lemma count_objects_cons (v : Flag.t) (m : list Flag.t) :
  count_objects (v :: m) = (one_if (has_object v) + count_objects m)%nat.
Proof.
  unfold count_objects. rewrite filter_cons.
  destruct (has_object v); reflexivity.
Qed.

Lemma count_objects_alter (f : Flag.t -> Flag.t) (m : list Flag.t) (i : nat)
  (v : Flag.t) :
  m !! i = Some v ->
  (count_objects (alter f i m) + one_if (has_object v)
   = count_objects m + one_if (has_object (f v)))%nat.
Proof.
  revert i. induction m as [|w m IH]; intros [|i] Hi; try discriminate.
  - injection Hi as ->. cbn [alter list_alter].
    rewrite !count_objects_cons. lia.
  - cbn [alter list_alter]. rewrite !count_objects_cons.
    specialize (IH i Hi). cbn [alter] in IH. lia.
Qed.

Lemma count_objects_at_assign (f : Flag.t -> Flag.t) (m : list Flag.t)
  (c : Vec2D) :
  length m = Z.to_nat (Width * Height) -> on_board c ->
  (count_objects (at_assign f m c) + one_if (has_object (at_ m c))
   = count_objects m + one_if (has_object (f (at_ m c))))%nat.
Proof.
  intros Hlen Hc. unfold at_assign, at_.
  destruct (lookup_lt_is_Some_2 m (slot c)) as [v Hv].
  { rewrite Hlen. apply slot_lt, Hc. }
  rewrite Hv. cbn [default]. apply count_objects_alter, Hv.
Qed.

Lemma move_object_count (s : Map) (dir : Direction) :
  well_formed s -> object_count (move s dir) = object_count s.
Proof.
  intros [Hlen Hp].
  destruct (Z_lt_le_dec (calculateObjectLength (_map s) (_person_pos s) dir) 0)
    as [Hn|Hn].
  { rewrite move_rejected; [reflexivity|assumption]. }
  destruct (scan_success _ _ _ Hn)
    as (k & Hk & _ & Hk6 & Hrun & Hfree & Hq & _).
  set (p := _person_pos s) in *. set (q := (p + dirToVec dir)%vec) in *.
  set (m1 := at_assign (Flag.and_assign (Flag.not Flag.Person)) (_map s) p).
  set (m2 := at_assign (Flag.and_assign (Flag.not Flag.Object)) m1 q).
  set (m3 := at_assign (Flag.or_assign Flag.Person) m2 q).
  assert (Hl1 : length m1 = Z.to_nat (Width * Height))
    by (unfold m1; rewrite length_at_assign; assumption).
  assert (Hl2 : length m2 = Z.to_nat (Width * Height))
    by (unfold m2; rewrite length_at_assign; assumption).
  assert (Hl3 : length m3 = Z.to_nat (Width * Height))
    by (unfold m3; rewrite length_at_assign; assumption).
  pose proof (count_objects_at_assign
                (Flag.and_assign (Flag.not Flag.Person)) _ p Hlen Hp) as H1.
  pose proof (count_objects_at_assign
                (Flag.and_assign (Flag.not Flag.Object)) _ q Hl1 Hq) as H2.
  pose proof (count_objects_at_assign
                (Flag.or_assign Flag.Person) _ q Hl2 Hq) as H3.
  fold m1 in H1. fold m2 in H2. fold m3 in H3.
  rewrite clear_person_object in H1.
  rewrite clear_object_object in H2.
  rewrite set_person_object in H3.
  assert (Hm1 : forall c, has_object (at_ m1 c) = has_object (at_ (_map s) c)).
  { intros c. apply at_assign_keeps, clear_person_object. }
  rewrite Hm1 in H2.
  rewrite !object_count_eq. unfold move. cbv zeta. fold p.
  replace (_ <? 0) with false by (symmetry; lia).
  destruct (Z.eqb_spec (calculateObjectLength (_map s) p dir) 0) as [H0|H0];
    cbn [negb _map _person_pos moveOnlyPerson]; fold p q m1 m2 m3.
  - assert (k = 0%nat) as -> by lia.
    change (Z.of_nat 1) with 1 in Hfree. rewrite ahead_1 in Hfree.
    fold q in Hfree. destruct Hfree as [_ Hfree]. rewrite Hfree in H2.
    cbn [one_if] in *. lia.
  - assert (Hk1 : (1 <= k)%nat) by lia.
    destruct (Hrun 1%nat) as [_ Ho]; [lia|].
    change (Z.of_nat 1) with 1 in Ho. rewrite ahead_1 in Ho. fold q in Ho.
    rewrite Ho in H2.
    set (t := (q + dirToVec dir * calculateObjectLength (_map s) p dir)%vec).
    assert (Ht : t = ahead p dir (Z.of_nat (S k))).
    { unfold t. fold (ahead q dir (calculateObjectLength (_map s) p dir)).
      unfold q. rewrite <- ahead_succ, Hk. f_equal. lia. }
    assert (Htb : on_board t) by (rewrite Ht; apply Hfree).
    assert (Htq : t <> q).
    { rewrite Ht. unfold q. rewrite <- ahead_1.
      apply ahead_ne; (assumption || lia). }
    pose proof (count_objects_at_assign
                  (Flag.or_assign Flag.Object) _ t Hl3 Htb) as H4.
    rewrite set_object_object in H4.
    assert (Hm3 : has_object (at_ m3 t) = false).
    { unfold m3. rewrite at_assign_other by assumption.
      unfold m2. rewrite at_assign_other by assumption.
      rewrite Hm1, Ht. apply Hfree. }
    rewrite Hm3 in H4. cbn [one_if] in *. lia.
Qed.

(** ** The recorded accesses *)

(** The cells the scan reads are those it has passed the bounds test for:
    they are on the board, whatever the starting position. *)
Lemma scan_reads (m : list Flag.t) (pos : Vec2D) (dir : Direction) :
  exists n : nat,
    reads (calculateObjectLength_traced m pos dir)
    = Read <$> cells_ahead pos dir n /\
    (n <= S (depth (calculateObjectLength_traced m pos dir)))%nat /\
    Forall on_board (cells_ahead pos dir n).
Proof.
  destruct (scan_spec m pos dir) as [Hrun Hend].
  set (sc := calculateObjectLength_traced m pos dir) in *.
  assert (Hcells : Forall on_board (cells_ahead pos dir (depth sc))).
  { apply Forall_forall. intros c Hc.
    apply elem_of_cells_ahead in Hc as (i & Hi & ->). apply Hrun, Hi. }
  destruct Hend as [(_ & Hfree & Hreads)|(_ & _ & Hreads)].
  - exists (S (depth sc)). split; [assumption|]. split; [lia|].
    apply Forall_forall. intros c Hc.
    apply elem_of_cells_ahead in Hc as (i & Hi & ->).
    destruct (decide (i = S (depth sc))) as [-> | Hne]; [apply Hfree|].
    apply Hrun. lia.
  - exists (depth sc). split; [assumption|]. split; [lia|assumption].
Qed.

(** Cells ahead that are all on the board are pairwise distinct. *)
Lemma cells_ahead_NoDup (p : Vec2D) (dir : Direction) (n : nat) :
  Forall on_board (cells_ahead p dir n) -> NoDup (cells_ahead p dir n).
Proof.
  intros Hall. rewrite Forall_forall in Hall.
  destruct n as [|n]; [constructor|].
  assert (Hq : on_board (p + dirToVec dir)%vec).
  { apply Hall, elem_of_cells_ahead. exists 1%nat. split; [lia|].
    symmetry. apply ahead_1. }
  assert (Hn : (n <= 6)%nat).
  { destruct (le_lt_dec n 6) as [|Hn]; [assumption|exfalso].
    apply (ahead_leaves _ dir 7 Hq); [lia|].
    change 7 with (Z.of_nat 7). rewrite <- ahead_S.
    apply Hall, elem_of_cells_ahead. exists 8%nat. split; [lia|reflexivity]. }
  unfold cells_ahead. apply NoDup_fmap_2_strong; [|apply NoDup_seq].
  intros i j Hi Hj Heq. apply elem_of_seq in Hi, Hj.
  destruct i as [|i]; [lia|]. destruct j as [|j]; [lia|].
  rewrite !ahead_S in Heq.
  destruct (decide (i = j)) as [-> | Hne]; [reflexivity|exfalso].
  revert Heq. apply ahead_ne; (assumption || lia).
Qed.

(** The accesses of a rejected move are those of its scan. *)
Lemma move_traced_rejected (s : Map) (dir : Direction) :
  calculateObjectLength (_map s) (_person_pos s) dir < 0 ->
  snd (move_traced s dir)
  = reads (calculateObjectLength_traced (_map s) (_person_pos s) dir).
Proof.
  intros Hn. unfold move_traced. cbv zeta.
  rewrite calculateObjectLength_traced_result.
  replace (_ <? 0) with true by (symmetry; lia). reflexivity.
Qed.

Lemma move_traced_accepted (s : Map) (dir : Direction) :
  0 <= calculateObjectLength (_map s) (_person_pos s) dir ->
  snd (move_traced s dir)
  = reads (calculateObjectLength_traced (_map s) (_person_pos s) dir)
    ++ commit_log s dir.
Proof.
  intros Hn. unfold move_traced, commit_log. cbv zeta.
  rewrite calculateObjectLength_traced_result.
  replace (_ <? 0) with false by (symmetry; lia).
  cbn [moveOnlyPerson_traced moveOnlyPerson _person_pos].
  rewrite ahead_succ.
  destruct (_ =? 0); cbn [negb snd]; reflexivity.
Qed.

(** * Theorems *)

(** ** Theorems on one move *)

(** C1: when the actor faces a run of [k >= 0] cells that are on the board
    and hold an object, followed by a cell that is on the board and holds
    none, [move] is accepted: the scan counts [k], and counts [k - j] from
    the [j]-th cell of the run, a level over an object cell counting [K + 1]
    when the level below it counts [K >= 0]; the actor advances one cell,
    and the run is displaced by one cell: the cell next to the actor's old
    one loses its object, the [k] cells after it hold one, and no other cell
    gains or loses an object. *)
Theorem move_pushes_run (s : Map) (dir : Direction) (k : nat) :
  well_formed s ->
  run (_map s) (_person_pos s) dir k ->
  free (_map s) (ahead (_person_pos s) dir (Z.of_nat (S k))) ->
  let p := _person_pos s in
  calculateObjectLength (_map s) p dir = Z.of_nat k /\
  (forall j : nat, (j <= k)%nat ->
     calculateObjectLength (_map s) (ahead p dir (Z.of_nat j)) dir
     = Z.of_nat (k - j)) /\
  (forall pos K,
     on_board (pos + dirToVec dir)%vec ->
     has_object (at_ (_map s) (pos + dirToVec dir)%vec) = true ->
     calculateObjectLength (_map s) (pos + dirToVec dir)%vec dir = K ->
     0 <= K ->
     calculateObjectLength (_map s) pos dir = K + 1) /\
  _person_pos (move s dir) = ahead p dir 1 /\
  has_actor (cell (move s dir) p) = false /\
  has_actor (cell (move s dir) (ahead p dir 1)) = true /\
  has_object (cell (move s dir) (ahead p dir 1)) = false /\
  (forall i : nat, (1 <= i <= k)%nat ->
     has_object (cell (move s dir) (ahead p dir (Z.of_nat (S i)))) = true) /\
  (forall c, on_board c -> c ∉ cells_ahead p dir (S k) ->
     has_object (cell (move s dir) c) = has_object (cell s c)).
Proof.
  intros Hwf Hrun Hfree p.
  assert (Hp : on_board p) by apply Hwf.
  assert (Hn : calculateObjectLength (_map s) p dir = Z.of_nat k).
  { rewrite <- calculateObjectLength_traced_result.
    apply scan_of_free; assumption. }
  assert (Hn0 : 0 <= calculateObjectLength (_map s) (_person_pos s) dir).
  { fold p. lia. }
  pose proof (run_bound _ _ _ _ Hrun) as Hk6.
  destruct (scan_success _ _ _ Hn0) as (_ & _ & _ & _ & _ & _ & Hb & _).
  fold p in Hb.
  split; [assumption|]. split.
  { intros j Hj. rewrite <- calculateObjectLength_traced_result.
    apply scan_of_free.
    - apply run_from; assumption.
    - rewrite ahead_add, <- Nat2Z.inj_add.
      replace (j + S (k - j))%nat with (S k) by lia. assumption. }
  split; [intros pos K; apply calculateObjectLength_level|].
  rewrite ahead_1. split; [apply move_person_pos; assumption|].
  split.
  { pose proof (step_ne p dir Hp).
    rewrite move_actor by assumption. cbv zeta. fold p.
    repeat case_decide; (reflexivity || congruence). }
  split.
  { rewrite move_actor by assumption. cbv zeta. fold p.
    repeat case_decide; (reflexivity || congruence). }
  split.
  { rewrite move_objects by assumption. cbv zeta. fold p.
    repeat case_decide; (reflexivity || congruence). }
  split.
  - intros i Hi.
    assert (Hc : on_board (ahead p dir (Z.of_nat (S i)))).
    { destruct (decide (i = k)) as [-> | ]; [apply Hfree|apply Hrun; lia]. }
    rewrite move_objects by assumption. cbv zeta. fold p.
    rewrite <- ahead_1, decide_False by (apply ahead_ne; (assumption || lia)).
    case_decide as Ht; [reflexivity|].
    destruct (decide (i = k)) as [-> | ].
    + exfalso. apply Ht. split; [lia|]. rewrite Hn. f_equal. lia.
    + apply (Hrun (S i)). lia.
  - intros c Hc Hnot. rewrite move_objects by assumption. cbv zeta. fold p.
    rewrite decide_False.
    + rewrite decide_False; [reflexivity|]. intros [_ ->]. apply Hnot.
      apply elem_of_cells_ahead. exists (S k). split; [lia|].
      f_equal. lia.
    + intros ->. apply Hnot. apply elem_of_cells_ahead.
      exists 1%nat. split; [lia|]. symmetry. apply ahead_1.
Qed.

(** C3: when the run ahead of the actor ends at the edge of the board ([k]
    objects, then a cell off the board; [k = 0] is a destination off the
    board), the scan returns [-1] and [move] returns the state it was given:
    every flag and the actor position are as before, and no assignment is
    made on the way.  [move] is a total function: there is no error to
    return. *)
Theorem move_illegal_unchanged (s : Map) (dir : Direction) (k : nat) :
  run (_map s) (_person_pos s) dir k ->
  ~ on_board (ahead (_person_pos s) dir (Z.of_nat (S k))) ->
  calculateObjectLength (_map s) (_person_pos s) dir = -1 /\
  move s dir = s /\
  Forall (fun a => is_write a = false) (snd (move_traced s dir)).
Proof.
  intros Hrun Hedge.
  destruct (scan_of_edge _ _ _ _ Hrun Hedge) as [_ Hres].
  rewrite calculateObjectLength_traced_result in Hres.
  split; [assumption|]. split; [apply move_rejected; lia|].
  rewrite move_traced_rejected by lia.
  destruct (scan_reads (_map s) (_person_pos s) dir) as (n & -> & _).
  apply Forall_fmap, Forall_forall. reflexivity.
Qed.

(** C5: when the cell one step ahead of the actor is on the board and holds
    no object, [move] is accepted with count [0]; the actor's old cell loses
    the actor flag and nothing else, the new cell gains the actor flag and
    nothing else, and every other cell keeps its flags. *)
Theorem move_into_free_cell (s : Map) (dir : Direction) :
  actor_inv s ->
  free (_map s) (_person_pos s + dirToVec dir)%vec ->
  let p := _person_pos s in
  let q := (p + dirToVec dir)%vec in
  calculateObjectLength (_map s) p dir = 0 /\
  _person_pos (move s dir) = q /\
  (has_actor (cell s p) = true /\
   cell (move s dir) p = Flag.and_assign (Flag.not Flag.Person) (cell s p) /\
   has_actor (cell (move s dir) p) = false) /\
  (has_actor (cell s q) = false /\
   cell (move s dir) q = Flag.or_assign Flag.Person (cell s q) /\
   has_actor (cell (move s dir) q) = true) /\
  (forall c, on_board c -> c <> p -> c <> q ->
     cell (move s dir) c = cell s c).
Proof.
  intros [Hwf Hact] Hfree p q.
  assert (Hp : on_board p) by apply Hwf.
  assert (Hq : on_board q) by apply Hfree.
  assert (Hn : calculateObjectLength (_map s) p dir = 0).
  { rewrite <- calculateObjectLength_traced_result.
    apply (scan_of_free _ _ _ 0%nat).
    - intros i Hi. lia.
    - change (Z.of_nat 1) with 1. rewrite ahead_1. assumption. }
  assert (Hn0 : 0 <= calculateObjectLength (_map s) (_person_pos s) dir).
  { fold p. lia. }
  assert (Hqp : q <> p) by (apply step_ne; assumption).
  split; [assumption|]. split; [apply move_person_pos; assumption|].
  split; [|split].
  - split; [apply Hact; auto|]. split.
    + rewrite move_cell by assumption. cbv zeta. fold p q. rewrite Hn.
      repeat case_decide; (reflexivity || tauto || congruence).
    + rewrite move_actor by assumption. cbv zeta. fold p q.
      repeat case_decide; (reflexivity || tauto || congruence).
  - split.
    { destruct (has_actor (cell s q)) eqn:Ha; [|reflexivity].
      apply Hact in Ha; [contradiction|assumption]. }
    split.
    + rewrite move_cell by assumption. cbv zeta. fold p q. rewrite Hn.
      repeat case_decide; try (tauto || congruence).
      f_equal. apply (clear_clear _ 0); [lia|apply Hfree].
    + rewrite move_actor by assumption. cbv zeta. fold p q.
      repeat case_decide; (reflexivity || tauto || congruence).
  - intros c Hc Hcp Hcq. rewrite move_cell by assumption. cbv zeta.
    fold p q. rewrite Hn.
    repeat case_decide; (reflexivity || tauto || congruence).
Qed.

(** C7: after any finite sequence of moves, from any board, every cell has
    the goal flag it had at the start. *)
Theorem moves_keep_goals (s : Map) (dirs : list Direction) (c : Vec2D) :
  is_goal (cell (moves s dirs) c) = is_goal (cell s c).
Proof.
  revert s. induction dirs as [|dir dirs IH]; intros s; [reflexivity|].
  cbn [moves foldl]. fold (moves (move s dir) dirs).
  rewrite IH. apply move_goal.
Qed.

(** ** Theorems on the object that lands *)

(** C2 (as amended): after an accepted move that resolves [n > 0] chained
    objects, the one assignment [|= Object] of the move is made on the cell
    [n] steps past the actor's new position, that is [n + 1] steps past the
    position it had before the move; that cell is on the board, held no
    object before the move and holds one after it. *)
Theorem move_object_lands (s : Map) (dir : Direction) :
  well_formed s ->
  0 < calculateObjectLength (_map s) (_person_pos s) dir ->
  let p := _person_pos s in
  let n := calculateObjectLength (_map s) p dir in
  let t := ahead p dir (n + 1) in
  t = ahead (_person_pos (move s dir)) dir n /\
  on_board t /\
  (forall c, OrAssign c Flag.Object ∈ snd (move_traced s dir) <-> c = t) /\
  has_object (cell s t) = false /\
  has_object (cell (move s dir) t) = true.
Proof.
  intros Hwf Hn p n t.
  assert (Hn0 : 0 <= calculateObjectLength (_map s) (_person_pos s) dir)
    by lia.
  destruct (scan_success _ _ _ Hn0)
    as (k & Hk & _ & Hk6 & Hrun & Hfree & Hq & Hreads).
  assert (Hk1 : (1 <= k)%nat) by lia.
  fold p in Hk, Hrun, Hfree, Hq.
  assert (Ht : t = ahead p dir (Z.of_nat (S k))).
  { unfold t, n. rewrite Hk. f_equal. lia. }
  assert (Htb : on_board t) by (rewrite Ht; apply Hfree).
  split. { rewrite move_person_pos by assumption. apply ahead_succ. }
  split; [assumption|]. split; [|split].
  - intros c. rewrite move_traced_accepted by assumption.
    rewrite Hreads. unfold commit_log. cbv zeta. fold p n t.
    replace (n =? 0) with false by (symmetry; unfold n, p; lia).
    rewrite !elem_of_app, list_elem_of_fmap, !elem_of_cons, elem_of_nil.
    split.
    + intros [(c' & Hc' & _)|[[Hc'|[Hc'|[Hc'|[]]]]|[Hc'|[]]]];
        try discriminate.
      injection Hc' as ->. reflexivity.
    + intros ->. right. right. left. reflexivity.
  - rewrite Ht. apply Hfree.
  - rewrite move_objects by assumption. cbv zeta. fold p n t.
    rewrite decide_False.
    + rewrite decide_True; [reflexivity|].
      split; [unfold n, p; lia|reflexivity].
    + rewrite Ht, <- ahead_1. destruct Hwf as [_ Hp].
      apply ahead_ne; (assumption || lia).
Qed.

(** ** Theorems on the invariants *)

(** C4: from a board on which exactly one cell holds the actor, the one at
    the tracked position, which is on the board, every [move], accepted or
    rejected, leads to a board with the same property. *)
Theorem move_keeps_actor (s : Map) (dir : Direction) :
  actor_inv s ->
  on_board (_person_pos (move s dir)) /\
  (forall c, on_board c ->
     has_actor (cell (move s dir) c) = true <-> c = _person_pos (move s dir)).
Proof.
  intros Hinv. destruct (move_actor_inv s dir Hinv) as [[_ Hp] Hact].
  split; assumption.
Qed.

(** C6: every [move] from a board whose actor stands on it keeps the number
    of cells that hold an object, and a rejected [move] keeps the array of
    flags as it is. *)
Theorem move_keeps_objects (s : Map) (dir : Direction) :
  well_formed s ->
  object_count (move s dir) = object_count s /\
  (calculateObjectLength (_map s) (_person_pos s) dir < 0 ->
   _map (move s dir) = _map s).
Proof.
  intros Hwf. split; [apply move_object_count; assumption|].
  intros Hn. rewrite move_rejected; [reflexivity|assumption].
Qed.

(** C10: in the initial layout and after any finite sequence of moves, a
    cell that holds the actor holds no object. *)
Theorem actor_never_on_object (dirs : list Direction) (c : Vec2D) :
  on_board c ->
  has_actor (cell (moves Map_init dirs) c) = true ->
  has_object (cell (moves Map_init dirs) c) = false.
Proof.
  intros Hc Ha.
  destruct (moves_Map_init_inv dirs) as [[_ Hact] Hclear].
  apply Hact in Ha; [|assumption]. subst c. exact Hclear.
Qed.

(** ** Theorems on the accesses and on termination *)

(** C8: from a board whose actor stands on it, every evaluation of
    [at(pos)] made by [move] has [pos] on the board, hence a subscript below
    [Width * Height]; the accesses are the reads of the scan, each made after
    the bounds test of its cell, followed by the assignments, each made on
    the actor's cell or on a cell that the scan has read. *)
Theorem move_accesses_on_board (s : Map) (dir : Direction) :
  well_formed s ->
  let sc := calculateObjectLength_traced (_map s) (_person_pos s) dir in
  let log := snd (move_traced s dir) in
  Forall (fun a => on_board (access_pos a) /\
                   0 <= index (access_pos a) < Width * Height) log /\
  Forall (fun a => is_write a = false) (reads sc) /\
  exists writes,
    log = reads sc ++ writes /\
    Forall (fun a => is_write a = true /\
                     (access_pos a = _person_pos s \/
                      Read (access_pos a) ∈ reads sc)) writes.
Proof.
  intros Hwf. cbv zeta.
  assert (Hp : on_board (_person_pos s)) by apply Hwf.
  destruct (scan_reads (_map s) (_person_pos s) dir) as (r & Hr & _ & Hrb).
  assert (Hidx : forall c, on_board c ->
                   on_board c /\ 0 <= index c < Width * Height).
  { intros c Hc. split; [assumption|]. rewrite index_on_board by assumption.
    unfold on_board, Width, Height in *. lia. }
  assert (Hreads : Forall (fun a => on_board (access_pos a) /\
                     0 <= index (access_pos a) < Width * Height)
                     (reads (calculateObjectLength_traced (_map s)
                               (_person_pos s) dir))).
  { rewrite Hr. apply Forall_fmap. eapply Forall_impl; [exact Hrb|].
    intros c Hc. apply Hidx, Hc. }
  assert (Hnw : Forall (fun a => is_write a = false)
                  (reads (calculateObjectLength_traced (_map s)
                            (_person_pos s) dir))).
  { rewrite Hr. apply Forall_fmap, Forall_forall. reflexivity. }
  destruct (Z_lt_le_dec (calculateObjectLength (_map s) (_person_pos s) dir) 0)
    as [Hn|Hn].
  - rewrite move_traced_rejected by assumption.
    split; [assumption|]. split; [assumption|].
    exists []. rewrite app_nil_r. split; [reflexivity|constructor].
  - rewrite move_traced_accepted by assumption.
    destruct (scan_success _ _ _ Hn)
      as (k & Hk & _ & Hk6 & Hrun & Hfree & Hq & Hreads').
    assert (Hqr : Read (_person_pos s + dirToVec dir)%vec
                  ∈ reads (calculateObjectLength_traced (_map s)
                             (_person_pos s) dir)).
    { rewrite Hreads'. apply list_elem_of_fmap_2, elem_of_cells_ahead.
      exists 1%nat. split; [lia|]. symmetry. apply ahead_1. }
    assert (Htr : calculateObjectLength (_map s) (_person_pos s) dir <> 0 ->
                  Read (ahead (_person_pos s) dir
                          (calculateObjectLength (_map s) (_person_pos s) dir
                           + 1))
                  ∈ reads (calculateObjectLength_traced (_map s)
                             (_person_pos s) dir)).
    { intros _. rewrite Hreads'. apply list_elem_of_fmap_2, elem_of_cells_ahead.
      exists (S k). split; [lia|]. rewrite Hk. f_equal. lia. }
    assert (Htb : on_board (ahead (_person_pos s) dir
                    (calculateObjectLength (_map s) (_person_pos s) dir + 1))).
    { rewrite Hk. replace (Z.of_nat k + 1) with (Z.of_nat (S k)) by lia.
      apply Hfree. }
    split; [|split; [assumption|]].
    + apply Forall_app. split; [assumption|]. unfold commit_log. cbv zeta.
      destruct (_ =? 0); repeat (constructor; [apply Hidx; assumption|]);
        constructor.
    + exists (commit_log s dir). split; [reflexivity|].
      unfold commit_log. cbv zeta.
      destruct (Z.eqb_spec (calculateObjectLength (_map s) (_person_pos s) dir)
                  0) as [H0|H0];
        repeat (constructor; [split; [reflexivity|auto]|]); constructor.
Qed.

(** C9: the scan is a total function; from any starting position its
    recursion depth is the length of the run of object cells ahead, at most
    the longest dimension of the board, and it ends either at a cell on the
    board that holds no object, with the length of the run as its count, or
    at a cell off the board, with [-1]; the cells it reads are the
    successive cells ahead, none read twice. *)
Theorem scan_terminates (m : list Flag.t) (pos : Vec2D) (dir : Direction) :
  let sc := calculateObjectLength_traced m pos dir in
  result sc = calculateObjectLength m pos dir /\
  (depth sc <= Z.to_nat (Z.max Width Height))%nat /\
  run m pos dir (depth sc) /\
  ((result sc = Z.of_nat (depth sc) /\
    free m (ahead pos dir (Z.of_nat (S (depth sc)))))
   \/
   (result sc = -1 /\
    ~ on_board (ahead pos dir (Z.of_nat (S (depth sc)))))) /\
  exists n : nat,
    reads sc = Read <$> cells_ahead pos dir n /\
    (n <= S (depth sc))%nat /\
    NoDup (cells_ahead pos dir n).
Proof.
  cbv zeta. destruct (scan_spec m pos dir) as [Hrun Hend].
  split; [apply calculateObjectLength_traced_result|].
  split; [apply (run_bound _ _ _ _ Hrun)|]. split; [assumption|]. split.
  - destruct Hend as [(Hres & Hfree & _)|(Hres & Hoff & _)]; auto.
  - destruct (scan_reads m pos dir) as (n & Hn & Hle & Hb).
    exists n. split; [assumption|]. split; [assumption|].
    apply cells_ahead_NoDup, Hb.
Qed.

(** * The theorems on given boards *)

(** The scenario of the reference layout: [Left] steps onto the empty cell
    (3,0); [Down] then [Left] pushes the two objects of row 1 to (0,1) and
    (1,1); one more [Left] is rejected. *)
Example scenario_step :
  move Map_init Left
  = mkMap (mkVec2D 3 0)
      [ 0; 4; 4; 2; 0; 0;
        0; 1; 1; 0; 0; 0;
        0; 0; 0; 0; 0; 0 ].
Proof. vm_compute. reflexivity. Qed.

Example scenario_push :
  board_blocked
  = mkMap (mkVec2D 2 1)
      [ 0; 4; 4; 0; 0; 0;
        1; 1; 2; 0; 0; 0;
        0; 0; 0; 0; 0; 0 ].
Proof. vm_compute. reflexivity. Qed.

Example scenario_rejected : move board_blocked Left = board_blocked.
Proof. vm_compute. reflexivity. Qed.

Example scenario_accesses :
  snd (move_traced board_pushing Left)
  = [ Read (mkVec2D 2 1); Read (mkVec2D 1 1); Read (mkVec2D 0 1);
      AndAssign (mkVec2D 3 1) (-3);
      AndAssign (mkVec2D 2 1) (-2);
      OrAssign (mkVec2D 2 1) 2;
      OrAssign (mkVec2D 0 1) 1 ].
Proof. vm_compute. reflexivity. Qed.

(** C2 (as stated) fails on [board_above] moved [Down]: one object is
    resolved, the cell one step past the actor's old position is the actor's
    new cell, which is assigned no object flag and holds none after the move;
    the object lands two steps past the old position. *)
Lemma object_lands_counterexample :
  let s := board_above in
  let n := calculateObjectLength (_map s) (_person_pos s) Down in
  let c := ahead (_person_pos s) Down n in
  well_formed s /\
  n = 1 /\
  c = mkVec2D 2 1 /\
  (OrAssign c Flag.Object ∉ snd (move_traced s Down)) /\
  has_object (cell (move s Down) c) = false /\
  has_object (cell (move s Down) (ahead (_person_pos s) Down (n + 1))) = true.
Proof.
  cbv zeta. split; [by_compute|]. split; [reflexivity|].
  split; [reflexivity|]. split; [by_compute|]. split; reflexivity.
Qed.

(** C1 on [board_pushing] moved [Left]: a run of two objects, then the free
    cell (0,1). *)
Lemma move_pushes_run_witness :
  well_formed board_pushing /\
  run (_map board_pushing) (_person_pos board_pushing) Left 2 /\
  free (_map board_pushing) (ahead (_person_pos board_pushing) Left 3) /\
  calculateObjectLength (_map board_pushing) (_person_pos board_pushing) Left
  = 2 /\
  _person_pos (move board_pushing Left)
  = ahead (_person_pos board_pushing) Left 1 /\
  has_object
    (cell (move board_pushing Left) (ahead (_person_pos board_pushing) Left 1))
  = false.
Proof.
  assert (Hwf : well_formed board_pushing) by by_compute.
  assert (Hrun : run (_map board_pushing) (_person_pos board_pushing) Left 2).
  { intros i Hi. assert (i = 1 \/ i = 2)%nat as [-> | ->] by lia;
      (split; [by_compute|reflexivity]). }
  assert (Hfree : free (_map board_pushing)
                    (ahead (_person_pos board_pushing) Left 3)).
  { split; [by_compute|reflexivity]. }
  destruct (move_pushes_run board_pushing Left 2 Hwf Hrun Hfree)
    as (Hn & _ & _ & Hpos & _ & _ & Hobj & _).
  exact (conj Hwf (conj Hrun (conj Hfree (conj Hn (conj Hpos Hobj))))).
Defined.

(** C2 (as amended) on [board_pushing] moved [Left]: two objects resolved,
    the object lands on (0,1), three steps past (3,1). *)
Lemma move_object_lands_witness :
  well_formed board_pushing /\
  0 < calculateObjectLength (_map board_pushing) (_person_pos board_pushing)
        Left /\
  on_board (ahead (_person_pos board_pushing) Left
              (calculateObjectLength (_map board_pushing)
                 (_person_pos board_pushing) Left + 1)) /\
  has_object
    (cell (move board_pushing Left)
       (ahead (_person_pos board_pushing) Left
          (calculateObjectLength (_map board_pushing)
             (_person_pos board_pushing) Left + 1)))
  = true.
Proof.
  assert (Hwf : well_formed board_pushing) by by_compute.
  assert (Hn : 0 < calculateObjectLength (_map board_pushing)
                     (_person_pos board_pushing) Left) by by_compute.
  destruct (move_object_lands board_pushing Left Hwf Hn)
    as (_ & Hb & _ & _ & Hobj).
  exact (conj Hwf (conj Hn (conj Hb Hobj))).
Defined.

(** C3 on [board_blocked] moved [Left]: a run of two objects, then the edge. *)
Lemma move_illegal_unchanged_witness :
  run (_map board_blocked) (_person_pos board_blocked) Left 2 /\
  ~ on_board (ahead (_person_pos board_blocked) Left 3) /\
  calculateObjectLength (_map board_blocked) (_person_pos board_blocked) Left
  = -1 /\
  move board_blocked Left = board_blocked /\
  Forall (fun a => is_write a = false) (snd (move_traced board_blocked Left)).
Proof.
  assert (Hrun : run (_map board_blocked) (_person_pos board_blocked) Left 2).
  { intros i Hi. assert (i = 1 \/ i = 2)%nat as [-> | ->] by lia;
      (split; [by_compute|reflexivity]). }
  assert (Hedge : ~ on_board (ahead (_person_pos board_blocked) Left 3))
    by by_compute.
  exact (conj Hrun (conj Hedge
           (move_illegal_unchanged board_blocked Left 2 Hrun Hedge))).
Defined.

(** C4 on the initial layout moved [Left]. *)
Lemma move_keeps_actor_witness :
  actor_inv Map_init /\
  on_board (_person_pos (move Map_init Left)) /\
  (forall c, on_board c ->
     has_actor (cell (move Map_init Left) c) = true
     <-> c = _person_pos (move Map_init Left)).
Proof.
  assert (Hinv : actor_inv Map_init).
  { apply actor_inv_cells; [by_compute|].
    repeat (constructor; [vm_compute; reflexivity|]). constructor. }
  exact (conj Hinv (move_keeps_actor Map_init Left Hinv)).
Defined.

(** C5 on the initial layout moved [Left]: (3,0) is free. *)
Lemma move_into_free_cell_witness :
  actor_inv Map_init /\
  free (_map Map_init) (_person_pos Map_init + dirToVec Left)%vec /\
  calculateObjectLength (_map Map_init) (_person_pos Map_init) Left = 0 /\
  _person_pos (move Map_init Left)
  = (_person_pos Map_init + dirToVec Left)%vec.
Proof.
  assert (Hinv : actor_inv Map_init).
  { apply actor_inv_cells; [by_compute|].
    repeat (constructor; [vm_compute; reflexivity|]). constructor. }
  assert (Hfree : free (_map Map_init)
                    (_person_pos Map_init + dirToVec Left)%vec).
  { split; [by_compute|reflexivity]. }
  destruct (move_into_free_cell Map_init Left Hinv Hfree) as (Hn & Hpos & _).
  exact (conj Hinv (conj Hfree (conj Hn Hpos))).
Defined.

(** C6 on the initial layout moved [Up], which is rejected. *)
Lemma move_keeps_objects_witness :
  well_formed Map_init /\
  calculateObjectLength (_map Map_init) (_person_pos Map_init) Up < 0 /\
  object_count (move Map_init Up) = object_count Map_init /\
  _map (move Map_init Up) = _map Map_init.
Proof.
  assert (Hwf : well_formed Map_init) by by_compute.
  assert (Hn : calculateObjectLength (_map Map_init) (_person_pos Map_init) Up
               < 0) by by_compute.
  destruct (move_keeps_objects Map_init Up Hwf) as [Hcount Hsame].
  exact (conj Hwf (conj Hn (conj Hcount (Hsame Hn)))).
Defined.

(** C8 on [board_pushing] moved [Left]. *)
Lemma move_accesses_on_board_witness :
  well_formed board_pushing /\
  Forall (fun a => on_board (access_pos a) /\
                   0 <= index (access_pos a) < Width * Height)
    (snd (move_traced board_pushing Left)).
Proof.
  assert (Hwf : well_formed board_pushing) by by_compute.
  exact (conj Hwf (proj1 (move_accesses_on_board board_pushing Left Hwf))).
Defined.

(** C10 after [Left], [Down], [Left]: the actor stands on (2,1), where an
    object stood. *)
Lemma actor_never_on_object_witness :
  on_board (mkVec2D 2 1) /\
  has_actor (cell (moves Map_init [Left; Down; Left]) (mkVec2D 2 1)) = true /\
  has_object (cell (moves Map_init [Left; Down; Left]) (mkVec2D 2 1)) = false.
Proof.
  assert (Hc : on_board (mkVec2D 2 1)) by by_compute.
  assert (Ha : has_actor (cell (moves Map_init [Left; Down; Left])
                            (mkVec2D 2 1)) = true) by reflexivity.
  exact (conj Hc (conj Ha
           (actor_never_on_object [Left; Down; Left] (mkVec2D 2 1) Hc Ha))).
Defined.

(** * The rest of the program: keys, drawing and the main loop *)

(** ** [Vec2D]: the compound assignments

    [p += q], [p -= q] and [p *= k] assign [p + q], [p + -q] and [k * p] to
    [p]; each is given as the new value of [p]. *)

Definition Vec2D_add_assign (self other : Vec2D) : Vec2D :=
  Vec2D_add self other.

Definition Vec2D_sub_assign (self other : Vec2D) : Vec2D :=
  Vec2D_add_assign self (Vec2D_neg other).

Definition Vec2D_mul_assign (self : Vec2D) (factor : Z) : Vec2D :=
  Vec2D_scale factor self.

Infix "-" := Vec2D_sub : vec_scope.

(** [Flag &Map::at(int x, int y)]: [return at(Vec2D{ x, y });] *)
Definition at_xy (m : list Flag.t) (x y : Z) : Flag.t := at_ m (mkVec2D x y).

(** ** [updateGame] *)

(** The [switch] of [updateGame]: the direction of a key, [None] for the
    [default: return;]. *)
Definition key_direction (input : ascii) : option Direction :=
  match input with
  | "w"%char => Some Up
  | "a"%char => Some Left
  | "s"%char => Some Down
  | "d"%char => Some Right
  | _ => None
  end.

(** [void updateGame()], on the globals [input] and [map]. *)
Definition updateGame (input : ascii) (map : Map) : Map :=
  match key_direction input with
  | Some dir => move map dir
  | None => map
  end.

(** The board after the keys of a list, one [updateGame] each. *)
Definition play (keys : list ascii) (map : Map) : Map :=
  foldl (fun m key => updateGame key m) map keys.

(** ** [draw] *)

(** [toupper] in the "C" locale, which the program never changes. *)
Definition toupper (c : ascii) : ascii :=
  let n := N_of_ascii c in
  if ((97 <=? n) && (n <=? 122))%N then ascii_of_N (n - 32) else c.

(** The character [draw] prints for a cell with the flags [flag]. *)
Definition glyph (flag : Flag.t) : ascii :=
  let c := " "%char in
  let c := if Flag.test flag Flag.Object then "o"%char
           else if Flag.test flag Flag.Person then "p"%char
           else c in
  if Flag.test flag Flag.Goal
  then if negb (Ascii.eqb c " ") then toupper c else "."%char
  else c.

Definition newline : ascii := "010"%char.

(** [for (auto col = 0; col < Width + 2; col++) cout << "#";] *)
Definition draw_wall : list ascii :=
  col ← seqZ 0 (Width + 2); ["#"%char].

(** The body of the loop on [row]. *)
Definition draw_row (map : Map) (row : Z) : list ascii :=
  ["#"%char]
  ++ (col ← seqZ 0 Width; [glyph (at_xy (_map map) col row)])
  ++ ["#"%char; newline].

(** [void draw()]: the characters written to [cout]. *)
Definition draw (map : Map) : list ascii :=
  draw_wall ++ [newline]
  ++ (row ← seqZ 0 Height; draw_row map row)
  ++ draw_wall ++ [newline].

(** ** [getInput] and the loop of [main] *)

(** White space in the "C" locale, skipped by [cin >> input]. *)
Definition isspace (c : ascii) : bool :=
  let n := N_of_ascii c in (((9 <=? n) && (n <=? 13)) || (n =? 32))%N.

Fixpoint skip_space (cin : list ascii) : list ascii :=
  match cin with
  | c :: rest => if isspace c then skip_space rest else cin
  | [] => []
  end.

(** The globals [input] and [map], with what is left to read on [cin] and
    what has been written to [cout]. *)
Module Run.
Record t : Type := mk {
  input : ascii;
  map : Map;
  cin : list ascii;
  cout : list ascii
}.
End Run.

(** [void getInput()]: [std::cin >> input;] skips white space and stores the
    next character; at the end of the stream nothing is stored and [input]
    keeps its value. *)
Definition getInput (g : Run.t) : Run.t :=
  match skip_space (Run.cin g) with
  | c :: rest => Run.mk c (Run.map g) rest (Run.cout g)
  | [] => Run.mk (Run.input g) (Run.map g) [] (Run.cout g)
  end.

(** One turn of [while (true)]: [getInput(); updateGame(); draw();] *)
Definition turn (g : Run.t) : Run.t :=
  let g1 := getInput g in
  let m := updateGame (Run.input g1) (Run.map g1) in
  Run.mk (Run.input g1) m (Run.cin g1) (Run.cout g1 ++ draw m).

(** [main] up to the end of its [n]-th turn: the globals start as [input =
    0] and the initial layout, and the layout is drawn before the loop. *)
Definition main (n : nat) (cin : list ascii) : Run.t :=
  Nat.iter n turn (Run.mk zero Map_init cin (draw Map_init)).

(** The direction that undoes a step. *)
Definition opposite (dir : Direction) : Direction :=
  match dir with
  | Up => Down
  | Down => Up
  | Left => Right
  | Right => Left
  end.

(** ** Lemmas on keys and sessions *)

Lemma updateGame_key (input : ascii) (map : Map) (dir : Direction) :
  key_direction input = Some dir -> updateGame input map = move map dir.
Proof. intros Hk. unfold updateGame. rewrite Hk. reflexivity. Qed.

(** A list of keys acts as the list of the directions of its keys. *)
Lemma play_moves (keys : list ascii) (map : Map) :
  play keys map = moves map (omap key_direction keys).
Proof.
  revert map. induction keys as [|key keys IH]; intros map; [reflexivity|].
  cbn [play foldl omap list_omap]. fold (play keys (updateGame key map)).
  rewrite IH. unfold updateGame.
  destruct (key_direction key); reflexivity.
Qed.

Lemma moves_well_formed (s : Map) (dirs : list Direction) :
  well_formed s -> well_formed (moves s dirs).
Proof. apply moves_inv. intros s' dir. apply move_well_formed. Qed.

Lemma moves_object_count (s : Map) (dirs : list Direction) :
  well_formed s -> object_count (moves s dirs) = object_count s.
Proof.
  intros Hwf.
  apply (moves_inv
           (fun s' => well_formed s' /\ object_count s' = object_count s));
    [|auto].
  intros s' dir [Hwf' Hc]. split; [apply move_well_formed; assumption|].
  rewrite move_object_count; assumption.
Qed.

Lemma moves_goal (s : Map) (dirs : list Direction) (c : Vec2D) :
  is_goal (cell (moves s dirs) c) = is_goal (cell s c).
Proof.
  apply (moves_inv (fun s' => is_goal (cell s' c) = is_goal (cell s c)));
    [|reflexivity].
  intros s' dir Hs'. rewrite move_goal. assumption.
Qed.

(** ** Theorems on keys and sessions *)

(** X1: [updateGame] leaves the board as it is for every character other
    than the four keys [w], [a], [s], [d], upper-case letters included. *)
Theorem updateGame_ignores (input : ascii) (map : Map) :
  input <> "w"%char -> input <> "a"%char ->
  input <> "s"%char -> input <> "d"%char ->
  updateGame input map = map.
Proof.
  intros Hw Ha Hs Hd. unfold updateGame.
  destruct (key_direction input) as [dir|] eqn:Hk; [exfalso|reflexivity].
  destruct input as [[] [] [] [] [] [] [] []]; try discriminate Hk;
    congruence.
Qed.

(** X2: whatever characters are typed, the board that results from the
    initial layout has exactly one actor cell, the tracked one, which holds no
    object; it has the two objects of the layout, and the goal flags of the
    layout. *)
Theorem play_keeps_layout (keys : list ascii) (c : Vec2D) :
  actor_inv (play keys Map_init) /\
  actor_clear (play keys Map_init) /\
  object_count (play keys Map_init) = 2%nat /\
  is_goal (cell (play keys Map_init) c) = is_goal (cell Map_init c).
Proof.
  rewrite play_moves.
  destruct (moves_Map_init_inv (omap key_direction keys)) as [Hinv Hclear].
  split; [assumption|]. split; [assumption|]. split.
  - rewrite moves_object_count by apply Map_init_well_formed. reflexivity.
  - apply moves_goal.
Qed.

(** X1 on the upper-case [W]. *)
Lemma updateGame_ignores_witness :
  "W"%char <> "w"%char /\ "W"%char <> "a"%char /\
  "W"%char <> "s"%char /\ "W"%char <> "d"%char /\
  updateGame "W" Map_init = Map_init.
Proof.
  assert (Hw : "W"%char <> "w"%char) by discriminate.
  assert (Ha : "W"%char <> "a"%char) by discriminate.
  assert (Hs : "W"%char <> "s"%char) by discriminate.
  assert (Hd : "W"%char <> "d"%char) by discriminate.
  exact (conj Hw (conj Ha (conj Hs (conj Hd
           (updateGame_ignores "W" Map_init Hw Ha Hs Hd))))).
Defined.

(** ** Lemmas on steps back *)

(** Two arrays of [Width * Height] flags that agree on every cell of the
    board are equal. *)
Lemma board_ext (m m' : list Flag.t) :
  length m = Z.to_nat (Width * Height) ->
  length m' = Z.to_nat (Width * Height) ->
  (forall c, on_board c -> at_ m c = at_ m' c) ->
  m = m'.
Proof.
  intros Hm Hm' Hall.
  apply (list_eq_same_length _ _ (Z.to_nat (Width * Height))); try assumption.
  intros i v v' Hi Hv Hv'.
  set (c := mkVec2D (Z.of_nat i mod Width) (Z.of_nat i / Width)).
  assert (Hc : on_board c).
  { unfold c, on_board, Width, Height in *. cbn [x y].
    pose proof (Z.mod_pos_bound (Z.of_nat i) 6 ltac:(lia)).
    split; [lia|]. split; [apply Z.div_pos; lia|].
    apply Z.div_lt_upper_bound; lia. }
  assert (Hs : slot c = i).
  { unfold slot. rewrite index_on_board by assumption. unfold c. cbn [x y].
    rewrite (Z.mul_comm _ Width), <- Z.div_mod by (unfold Width; lia). lia. }
  specialize (Hall c Hc). unfold at_ in Hall. rewrite Hs, Hv, Hv' in Hall.
  exact Hall.
Qed.

Lemma bit_clear (f : Flag.t) (j n : Z) :
  0 <= j -> 0 <= n ->
  Z.testbit (Flag.and_assign (Flag.not (Z.shiftl 1 j)) f) n
  = Z.testbit f n && negb (j =? n).
Proof.
  intros Hj Hn. unfold Flag.and_assign, Flag.and, Flag.not.
  rewrite Z.land_spec, Z.lnot_spec, Z.shiftl_1_l, Z.pow2_bits_eqb by lia.
  reflexivity.
Qed.

Lemma bit_set (f : Flag.t) (j n : Z) :
  0 <= j -> 0 <= n ->
  Z.testbit (Flag.or_assign (Z.shiftl 1 j) f) n = Z.testbit f n || (j =? n).
Proof.
  intros Hj Hn. unfold Flag.or_assign, Flag.or.
  rewrite Z.lor_spec, Z.shiftl_1_l, Z.pow2_bits_eqb by lia.
  reflexivity.
Qed.

(** The assignments of a step away and of the step back, on the cell the
    actor leaves and comes back to. *)
Lemma flags_left_and_back (f : Flag.t) :
  has_actor f = true -> has_object f = false ->
  Flag.or_assign Flag.Person
    (Flag.and_assign (Flag.not Flag.Object)
       (Flag.and_assign (Flag.not Flag.Person) f)) = f.
Proof.
  rewrite has_actor_bit, has_object_bit. intros Ha Ho.
  apply Z.bits_inj'. intros n Hn. unfold Flag.Person, Flag.Object.
  rewrite bit_set, !bit_clear by lia.
  destruct (Z.eqb_spec 1 n) as [H1|H1]; destruct (Z.eqb_spec 0 n) as [H0|H0];
    try lia; subst; rewrite ?Ha, ?Ho; cbn [negb andb orb];
    rewrite ?andb_true_r, ?orb_false_r; reflexivity.
Qed.

(** The same on the cell the actor enters and leaves again. *)
Lemma flags_entered_and_left (f : Flag.t) :
  has_actor f = false -> has_object f = false ->
  Flag.and_assign (Flag.not Flag.Person)
    (Flag.or_assign Flag.Person
       (Flag.and_assign (Flag.not Flag.Object) f)) = f.
Proof.
  rewrite has_actor_bit, has_object_bit. intros Ha Ho.
  apply Z.bits_inj'. intros n Hn. unfold Flag.Person, Flag.Object.
  rewrite bit_clear, bit_set, bit_clear by lia.
  destruct (Z.eqb_spec 1 n) as [H1|H1]; destruct (Z.eqb_spec 0 n) as [H0|H0];
    try lia; subst; rewrite ?Ha, ?Ho; cbn [negb andb orb];
    rewrite ?andb_true_r, ?orb_false_r; reflexivity.
Qed.

(** The vector of the opposite direction is the negated vector, and a step
    followed by the opposite step ends where it started. *)
Lemma dirToVec_opposite (dir : Direction) :
  dirToVec (opposite dir) = Vec2D_neg (dirToVec dir).
Proof. destruct dir; reflexivity. Qed.

Lemma step_back (p : Vec2D) (dir : Direction) :
  on_board p ->
  (p + dirToVec dir + dirToVec (opposite dir))%vec = p.
Proof.
  unfold on_board, Width, Height. destruct p as [px py]. cbn [x y].
  intros [Hx Hy]. unfold Vec2D_add.
  destruct dir; cbn [x y dirToVec opposite];
    rewrite !to_int_small by (rewrite ?to_int_small; unfold is_int; lia);
    f_equal; lia.
Qed.

(** One step back from a cell ahead of the actor, with [operator -]. *)
Lemma ahead_sub (p : Vec2D) (dir : Direction) (n : Z) :
  on_board p -> 0 <= n <= 7 ->
  (ahead p dir (n + 1) - dirToVec dir)%vec = ahead p dir n.
Proof.
  intros Hp Hn. rewrite !ahead_plain by (assumption || lia).
  unfold on_board, Width, Height in Hp. destruct p as [px py].
  cbn [x y] in *. unfold Vec2D_sub, Vec2D_neg, Vec2D_mul, Vec2D_scale,
    Vec2D_add.
  destruct dir; cbn [x y dirToVec];
    rewrite !to_int_small by (rewrite ?to_int_small; unfold is_int; lia);
    f_equal; lia.
Qed.

(** A free cell ahead is entered without a push. *)
Lemma free_ahead_count (m : list Flag.t) (p : Vec2D) (dir : Direction) :
  free m (p + dirToVec dir)%vec -> calculateObjectLength m p dir = 0.
Proof.
  intros Hfree. rewrite <- calculateObjectLength_traced_result.
  apply (scan_of_free _ _ _ 0%nat).
  - intros i Hi. lia.
  - change (Z.of_nat 1) with 1. rewrite ahead_1. assumption.
Qed.

Lemma Map_eq (a b : Map) :
  _person_pos a = _person_pos b -> _map a = _map b -> a = b.
Proof. destruct a, b. cbn. congruence. Qed.

(** ** Theorems on what one move can and cannot do *)

(** X3: on a board whose actor stands on it, [move] returns the board it
    was given exactly when the scan rejects the move: an accepted move always
    shows, so a caller can tell the two apart by comparing boards. *)
Theorem move_unchanged_iff_rejected (s : Map) (dir : Direction) :
  well_formed s ->
  move s dir = s <->
  calculateObjectLength (_map s) (_person_pos s) dir < 0.
Proof.
  intros [_ Hp]. split; [|apply move_rejected].
  intros Hsame.
  destruct (Z_lt_le_dec (calculateObjectLength (_map s) (_person_pos s) dir) 0)
    as [Hn|Hn]; [assumption|exfalso].
  apply (step_ne (_person_pos s) dir Hp).
  rewrite <- (move_person_pos s dir Hn). rewrite Hsame. reflexivity.
Qed.

(** X4: on a board that satisfies the invariants of a session, a step onto
    a cell without object followed by the step in the opposite direction
    gives back the board, flag for flag. *)
Theorem step_back_restores (s : Map) (dir : Direction) :
  actor_inv s -> actor_clear s ->
  free (_map s) (_person_pos s + dirToVec dir)%vec ->
  move (move s dir) (opposite dir) = s.
Proof.
  intros [Hwf Hact] Hclear Hfree.
  set (p := _person_pos s) in *. set (q := (p + dirToVec dir)%vec) in *.
  assert (Hp : on_board p) by apply Hwf.
  assert (Hq : on_board q) by apply Hfree.
  assert (Hqp : q <> p) by (apply step_ne; assumption).
  assert (Hn : calculateObjectLength (_map s) p dir = 0)
    by (apply free_ahead_count; assumption).
  assert (Hn0 : 0 <= calculateObjectLength (_map s) (_person_pos s) dir)
    by (fold p; lia).
  pose proof (move_well_formed s dir Hwf) as Hwf1.
  pose proof (move_person_pos s dir Hn0) as Hpos1. fold p q in Hpos1.
  assert (Hback : (q + dirToVec (opposite dir))%vec = p)
    by (apply step_back; assumption).
  assert (Hfree1 : free (_map (move s dir))
                     (_person_pos (move s dir) + dirToVec (opposite dir))%vec).
  { rewrite Hpos1, Hback. split; [assumption|].
    change (has_object (cell (move s dir) p) = false).
    rewrite move_objects by assumption. cbv zeta. fold p q. rewrite Hn.
    repeat case_decide; (congruence || tauto). }
  pose proof (free_ahead_count _ _ _ Hfree1) as Hn1.
  assert (Hn10 : 0 <= calculateObjectLength (_map (move s dir))
                        (_person_pos (move s dir)) (opposite dir)) by lia.
  apply Map_eq.
  - rewrite move_person_pos by assumption. rewrite Hpos1. exact Hback.
  - apply board_ext.
    + rewrite !move_length. apply Hwf.
    + apply Hwf.
    + intros c Hc. change (cell (move (move s dir) (opposite dir)) c = cell s c).
      rewrite move_cell by assumption. cbv zeta. rewrite Hn1, Hpos1, Hback.
      rewrite (move_cell s dir c) by assumption. cbv zeta. fold p q.
      rewrite Hn.
      repeat case_decide; try (congruence || tauto).
      * subst c. apply flags_left_and_back; [apply Hact; auto|exact Hclear].
      * subst c. apply flags_entered_and_left; [|apply Hfree].
        destruct (has_actor (cell s q)) eqn:Ha; [|reflexivity].
        apply Hact in Ha; [contradiction|assumption].
Qed.

(** X5: from a cell of the board the count of the scan is [-1] or less than
    the number of cells between that cell and the edge it heads to: a push
    needs a free cell before the edge. *)
Theorem calculateObjectLength_below_room (m : list Flag.t) (p : Vec2D)
  (dir : Direction) :
  on_board p ->
  -1 <= calculateObjectLength m p dir < Z.of_nat (room p dir).
Proof.
  intros Hp.
  destruct (Z_lt_le_dec (calculateObjectLength m p dir) 0) as [Hn|Hn].
  - destruct (scan_failure _ _ _ Hn) as (k & -> & _). lia.
  - destruct (scan_success _ _ _ Hn) as (k & Hk & _ & Hk6 & _ & [Hb _] & _).
    rewrite Hk. split; [lia|].
    rewrite ahead_plain in Hb by (assumption || lia).
    unfold room. rewrite decide_True by assumption.
    unfold on_board, Width, Height in *.
    destruct dir; cbn [x y dirToVec] in Hb; lia.
Qed.

(** X6: objects are only pushed, one cell at a time: on a board whose actor
    stands on it, a cell that holds an object after [move] held one before,
    or the cell behind it (one step against the direction of the move, on the
    board) did. *)
Theorem objects_only_pushed (s : Map) (dir : Direction) (c : Vec2D) :
  well_formed s -> on_board c ->
  has_object (cell (move s dir) c) = true ->
  has_object (cell s c) = true \/
  (on_board (c - dirToVec dir)%vec /\
   has_object (cell s (c - dirToVec dir)%vec) = true).
Proof.
  intros Hwf Hc Hobj.
  destruct (Z_lt_le_dec (calculateObjectLength (_map s) (_person_pos s) dir) 0)
    as [Hn|Hn].
  { rewrite move_rejected in Hobj by assumption. left. assumption. }
  rewrite move_objects in Hobj by assumption. cbv zeta in Hobj.
  destruct (scan_success _ _ _ Hn) as (k & Hk & _ & Hk6 & Hrun & _).
  repeat case_decide; try discriminate; [right|left; assumption].
  match goal with H : _ /\ c = _ |- _ => destruct H as [Hne ->] end.
  rewrite ahead_sub by (apply Hwf || lia).
  rewrite Hk. apply (Hrun k). lia.
Qed.

(** X7: as long as no negation or sum overflows, subtracting what was added
    gives back the vector, with the operators as with the compound
    assignments. *)
Theorem Vec2D_add_then_sub (p q : Vec2D) :
  is_int (x p) -> is_int (y p) ->
  is_int (x p + x q) -> is_int (y p + y q) ->
  is_int (- x q) -> is_int (- y q) ->
  (p + q - q)%vec = p /\
  Vec2D_sub_assign (Vec2D_add_assign p q) q = p.
Proof.
  intros Hx Hy Hxq Hyq Hnx Hny.
  assert (Heq : (p + q - q)%vec = p).
  { destruct p as [px py], q as [qx qy]. cbn [x y] in *.
    unfold Vec2D_sub, Vec2D_neg, Vec2D_mul, Vec2D_scale, Vec2D_add.
    cbn [x y].
    rewrite (to_int_small (px + qx)), (to_int_small (py + qy)) by assumption.
    rewrite (to_int_small (-1 * qx)), (to_int_small (-1 * qy))
      by (unfold is_int in *; lia).
    rewrite !to_int_small by (unfold is_int in *; lia).
    f_equal; lia. }
  split; [exact Heq|exact Heq].
Qed.

(** ** Lemmas on drawing *)

(** The six characters of a cell: an object hides the actor flag. *)
Lemma glyph_cases (f : Flag.t) :
  glyph f =
  match has_object f, has_actor f, is_goal f with
  | true, _, false => "o"
  | true, _, true => "O"
  | false, true, false => "p"
  | false, true, true => "P"
  | false, false, false => " "
  | false, false, true => "."
  end%char.
Proof.
  unfold glyph, has_object, has_actor, is_goal.
  destruct (Flag.test f Flag.Object), (Flag.test f Flag.Person),
    (Flag.test f Flag.Goal); reflexivity.
Qed.

(** The character tells the goal flag, the object flag and, without object,
    the actor flag. *)
Lemma glyph_inj (f g : Flag.t) :
  glyph f = glyph g ->
  is_goal f = is_goal g /\
  has_object f = has_object g /\
  (has_object f = false -> has_actor f = has_actor g).
Proof.
  rewrite !glyph_cases.
  destruct (has_object f), (has_actor f), (is_goal f),
    (has_object g), (has_actor g), (is_goal g);
    intros Heq; try discriminate Heq; repeat split; congruence.
Qed.

(** Where [draw] writes the character of a cell. *)
Definition glyph_offset (c : Vec2D) : nat :=
  Z.to_nat ((y c + 1) * (Width + 3) + (x c + 1)).

Lemma draw_cell (s : Map) (c : Vec2D) :
  on_board c -> draw s !! glyph_offset c = Some (glyph (cell s c)).
Proof.
  intros Hc. apply on_board_cells in Hc.
  repeat (apply elem_of_cons in Hc as [->|Hc]; [reflexivity|]).
  inversion Hc.
Qed.

(** ** Theorems on drawing *)

(** X8: [draw] writes [Height + 2] lines of [Width + 2] characters and a
    new line each: a frame of [#] around one character per cell, the cell
    (col, row) on line [row + 1] at column [col + 1]. *)
Theorem draw_at (s : Map) (line col : Z) :
  0 <= line < Height + 2 -> 0 <= col < Width + 3 ->
  length (draw s) = Z.to_nat ((Height + 2) * (Width + 3)) /\
  draw s !! Z.to_nat (line * (Width + 3) + col) =
  Some (if col =? Width + 2 then newline
        else if (line =? 0) || (line =? Height + 1)
                || (col =? 0) || (col =? Width + 1)
             then "#"%char
             else glyph (cell s (mkVec2D (col - 1) (line - 1)))).
Proof.
  unfold Width, Height. intros Hl Hc. split; [reflexivity|].
  assert (Hline : line = 0 \/ line = 1 \/ line = 2 \/ line = 3 \/ line = 4)
    by lia.
  assert (Hcol : col = 0 \/ col = 1 \/ col = 2 \/ col = 3 \/ col = 4 \/
                 col = 5 \/ col = 6 \/ col = 7 \/ col = 8) by lia.
  destruct Hline as [-> | [-> | [-> | [-> | ->]]]];
    destruct Hcol
      as [-> | [-> | [-> | [-> | [-> | [-> | [-> | [-> | ->]]]]]]]];
    reflexivity.
Qed.

(** X9: the drawing tells the board: two boards that satisfy the invariants
    of a session and are drawn alike have the actor at the same position and
    the same object, actor and goal flags on every cell. *)
Theorem draw_determines_board (s s' : Map) :
  actor_inv s -> actor_clear s ->
  actor_inv s' -> actor_clear s' ->
  draw s = draw s' ->
  _person_pos s = _person_pos s' /\
  (forall c, on_board c ->
     has_object (cell s c) = has_object (cell s' c) /\
     has_actor (cell s c) = has_actor (cell s' c) /\
     is_goal (cell s c) = is_goal (cell s' c)).
Proof.
  intros [Hwf Hact] Hclear [Hwf' Hact'] Hclear' Hdraw.
  assert (Hglyph : forall c, on_board c ->
            glyph (cell s c) = glyph (cell s' c)).
  { intros c Hc. pose proof (draw_cell s c Hc) as H1.
    rewrite Hdraw, draw_cell in H1 by assumption. congruence. }
  assert (Hp : on_board (_person_pos s)) by apply Hwf.
  assert (Hpos : _person_pos s = _person_pos s').
  { destruct (glyph_inj _ _ (Hglyph _ Hp)) as (_ & _ & Ha).
    apply Hact'; [assumption|]. rewrite <- Ha by exact Hclear.
    apply Hact; auto. }
  split; [assumption|]. intros c Hc.
  destruct (glyph_inj _ _ (Hglyph c Hc)) as (Hg & Ho & _).
  split; [assumption|]. split; [|assumption].
  specialize (Hact c Hc). specialize (Hact' c Hc). rewrite <- Hpos in Hact'.
  destruct (has_actor (cell s c)), (has_actor (cell s' c)); try reflexivity.
  - symmetry. apply Hact'. apply Hact. reflexivity.
  - apply Hact. apply Hact'. reflexivity.
Qed.

(** ** Lemmas on the loop *)

Lemma skip_space_all (cin : list ascii) :
  Forall (fun c => isspace c = true) cin -> skip_space cin = [].
Proof.
  induction 1 as [|c cin Hc _ IH]; [reflexivity|].
  cbn [skip_space]. rewrite Hc. exact IH.
Qed.

(** The first key of a stream is the first character that is no white
    space. *)
Lemma skip_space_key (cin : list ascii) (key : ascii) (keys : list ascii) :
  filter (fun c => isspace c = false) cin = key :: keys ->
  exists rest,
    skip_space cin = key :: rest /\
    filter (fun c => isspace c = false) rest = keys.
Proof.
  induction cin as [|c cin IH]; [discriminate|].
  rewrite filter_cons. cbn [skip_space].
  destruct (isspace c) eqn:Hc.
  - rewrite decide_False by discriminate. exact IH.
  - rewrite decide_True by reflexivity. intros [= -> <-].
    exists cin. split; reflexivity.
Qed.

Lemma no_key_all_space (cin : list ascii) :
  filter (fun c => isspace c = false) cin = [] ->
  Forall (fun c => isspace c = true) cin.
Proof.
  induction cin as [|c cin IH]; [constructor|].
  rewrite filter_cons. destruct (isspace c) eqn:Hc.
  - rewrite decide_False by discriminate. intros Hf.
    constructor; [assumption|apply IH, Hf].
  - rewrite decide_True by reflexivity. discriminate.
Qed.

(** A turn at the end of the stream: the key of the turn before is played
    again. *)
Lemma turn_at_end (g : Run.t) :
  Forall (fun c => isspace c = true) (Run.cin g) ->
  turn g
  = Run.mk (Run.input g) (updateGame (Run.input g) (Run.map g)) []
      (Run.cout g ++ draw (updateGame (Run.input g) (Run.map g))).
Proof.
  intros Hs. unfold turn, getInput. rewrite (skip_space_all _ Hs). reflexivity.
Qed.

(** A turn with a key left on the stream. *)
Lemma turn_key (g : Run.t) (key : ascii) (rest : list ascii) :
  skip_space (Run.cin g) = key :: rest ->
  turn g
  = Run.mk key (updateGame key (Run.map g)) rest
      (Run.cout g ++ draw (updateGame key (Run.map g))).
Proof. intros Hs. unfold turn, getInput. rewrite Hs. reflexivity. Qed.

(** ** Theorems on the loop *)

(** X10: once only white space is left on [cin], [getInput] stores nothing
    and every further turn plays the last key again: after [n] turns the
    board is the board with [updateGame] applied [n] times for the same
    [input]. *)
Theorem turns_replay_last_key (g : Run.t) (n : nat) :
  Forall (fun c => isspace c = true) (Run.cin g) ->
  Run.input (Nat.iter n turn g) = Run.input g /\
  Run.map (Nat.iter n turn g)
  = Nat.iter n (updateGame (Run.input g)) (Run.map g) /\
  Forall (fun c => isspace c = true) (Run.cin (Nat.iter n turn g)).
Proof.
  intros Hs. induction n as [|n (Hin & Hmap & Hcin)]; [auto|].
  rewrite !Nat.iter_succ, (turn_at_end _ Hcin).
  cbn [Run.input Run.map Run.cin]. rewrite Hin, Hmap. auto.
Qed.

(** X11: white space between keys changes nothing: after as many turns as
    [cin] holds characters that are no white space, the board is the board
    played with exactly these characters, [input] is the last of them, and
    only white space is left on [cin]. *)
Theorem turns_play_keys (g : Run.t) :
  let keys := filter (fun c => isspace c = false) (Run.cin g) in
  let g' := Nat.iter (length keys) turn g in
  Run.map g' = play keys (Run.map g) /\
  Run.input g' = default (Run.input g) (last keys) /\
  Forall (fun c => isspace c = true) (Run.cin g').
Proof.
  cbv zeta.
  remember (filter (fun c => isspace c = false) (Run.cin g)) as keys eqn:Hk.
  symmetry in Hk. revert g Hk.
  induction keys as [|key keys IH]; intros g Hk.
  - cbn [length play foldl last default]. change (Nat.iter 0 turn g) with g.
    auto using no_key_all_space.
  - destruct (skip_space_key _ _ _ Hk) as (rest & Hskip & Hrest).
    cbn [length]. rewrite Nat.iter_succ_r, (turn_key _ _ _ Hskip).
    match goal with
    | |- context [Nat.iter _ turn ?g1] =>
        destruct (IH g1 Hrest) as (Hmap & Hin & Hcin)
    end.
    rewrite Hmap, Hin. cbn [Run.map Run.input]. split; [reflexivity|].
    split; [|assumption]. destruct keys as [|key' keys]; [reflexivity|].
    change (last (key :: key' :: keys)) with (last (key' :: keys)).
    destruct (last (key' :: keys)) eqn:Hlast; [reflexivity|].
    apply last_None in Hlast. discriminate.
Qed.

(** X12: [main] writes the frame of the initial layout before the loop and
    one frame per turn, whatever is read: after [n] turns [cout] holds
    [n + 1] frames of [(Height + 2) * (Width + 3)] characters, the last one
    being the drawing of the current board. *)
Theorem main_frames (n : nat) (cin : list ascii) :
  length (Run.cout (main n cin))
  = (S n * Z.to_nat ((Height + 2) * (Width + 3)))%nat /\
  exists frames,
    Run.cout (main n cin) = frames ++ draw (Run.map (main n cin)).
Proof.
  assert (Hlen : forall m, length (draw m)
                           = Z.to_nat ((Height + 2) * (Width + 3)))
    by reflexivity.
  unfold main. induction n as [|n [IHlen [frames IH]]].
  - cbn [Nat.iter nat_rect Run.cout Run.map]. split; [rewrite Hlen; lia|].
    exists []. reflexivity.
  - rewrite Nat.iter_succ.
    set (g := Nat.iter n turn (Run.mk zero Map_init cin (draw Map_init))) in *.
    unfold turn. cbn [Run.cout Run.map]. split.
    + rewrite length_app, Hlen.
      replace (Run.cout (getInput g)) with (Run.cout g)
        by (unfold getInput; destruct (skip_space _); reflexivity).
      rewrite IHlen. lia.
    + eexists. reflexivity.
Qed.

(** X10 on the board of the initial layout with [a] as the last key: five
    turns at the end of the stream run the actor to the left edge. *)
Lemma turns_replay_last_key_witness :
  Forall (fun c => isspace c = true)
    (Run.cin (Run.mk "a" Map_init [] [])) /\
  Run.map (Nat.iter 5 turn (Run.mk "a" Map_init [] []))
  = Nat.iter 5 (updateGame (Run.input (Run.mk "a" Map_init [] [])))
      (Run.map (Run.mk "a" Map_init [] [])).
Proof.
  assert (Hs : Forall (fun c => isspace c = true)
                 (Run.cin (Run.mk "a" Map_init [] []))) by constructor.
  exact (conj Hs
           (proj1 (proj2 (turns_replay_last_key
                            (Run.mk "a" Map_init [] []) 5 Hs)))).
Defined.

(** * The further theorems on given boards *)

(** The initial layout with one more bit set in the flags of the cell
    (0,0): another board, drawn like the layout. *)
Definition board_marked : Map :=
  mkMap (mkVec2D 4 0)
    [ 8; 4; 4; 0; 2; 0;
      0; 1; 1; 0; 0; 0;
      0; 0; 0; 0; 0; 0 ].

Example turns_example :
  let g := main 6 ["a"; newline; "s"; " "; "a"]%char in
  Run.input g = "a"%char /\ Run.cin g = [] /\ Run.map g = board_blocked.
Proof. vm_compute. repeat split; reflexivity. Qed.

(** X3 on the initial layout moved [Up], which is rejected. *)
Lemma move_unchanged_iff_rejected_witness :
  well_formed Map_init /\
  (move Map_init Up = Map_init <->
   calculateObjectLength (_map Map_init) (_person_pos Map_init) Up < 0).
Proof.
  assert (Hwf : well_formed Map_init) by by_compute.
  exact (conj Hwf (move_unchanged_iff_rejected Map_init Up Hwf)).
Defined.

(** X4 on the initial layout: [Left], then [Right]. *)
Lemma step_back_restores_witness :
  actor_inv Map_init /\
  actor_clear Map_init /\
  free (_map Map_init) (_person_pos Map_init + dirToVec Left)%vec /\
  move (move Map_init Left) (opposite Left) = Map_init.
Proof.
  assert (Hinv : actor_inv Map_init).
  { apply actor_inv_cells; [by_compute|].
    repeat (constructor; [vm_compute; reflexivity|]). constructor. }
  assert (Hclear : actor_clear Map_init) by reflexivity.
  assert (Hfree : free (_map Map_init)
                    (_person_pos Map_init + dirToVec Left)%vec).
  { split; [by_compute|reflexivity]. }
  exact (conj Hinv (conj Hclear (conj Hfree
           (step_back_restores Map_init Left Hinv Hclear Hfree)))).
Defined.

(** X5 on [board_pushing] towards [Left]: three cells to the edge, two
    objects pushed. *)
Lemma calculateObjectLength_below_room_witness :
  on_board (mkVec2D 3 1) /\
  -1 <= calculateObjectLength (_map board_pushing) (mkVec2D 3 1) Left
     < Z.of_nat (room (mkVec2D 3 1) Left).
Proof.
  assert (Hp : on_board (mkVec2D 3 1)) by by_compute.
  exact (conj Hp
           (calculateObjectLength_below_room (_map board_pushing)
              (mkVec2D 3 1) Left Hp)).
Defined.

(** X6 on [board_pushing] moved [Left]: the object on (0,1) comes from
    (1,1). *)
Lemma objects_only_pushed_witness :
  well_formed board_pushing /\
  on_board (mkVec2D 0 1) /\
  has_object (cell (move board_pushing Left) (mkVec2D 0 1)) = true /\
  (has_object (cell board_pushing (mkVec2D 0 1)) = true \/
   (on_board (mkVec2D 0 1 - dirToVec Left)%vec /\
    has_object (cell board_pushing (mkVec2D 0 1 - dirToVec Left)%vec)
    = true)).
Proof.
  assert (Hwf : well_formed board_pushing) by by_compute.
  assert (Hc : on_board (mkVec2D 0 1)) by by_compute.
  assert (Ho : has_object (cell (move board_pushing Left) (mkVec2D 0 1))
               = true) by reflexivity.
  exact (conj Hwf (conj Hc (conj Ho
           (objects_only_pushed board_pushing Left (mkVec2D 0 1)
              Hwf Hc Ho)))).
Defined.

(** X7 on the actor's position of the layout and the vector of [Left]. *)
Lemma Vec2D_add_then_sub_witness :
  is_int 4 /\ is_int 0 /\ is_int (4 + -1) /\ is_int (0 + 0) /\
  is_int (- -1) /\ is_int (- 0) /\
  (mkVec2D 4 0 + dirToVec Left - dirToVec Left)%vec = mkVec2D 4 0.
Proof.
  assert (H1 : is_int 4) by (unfold is_int; lia).
  assert (H2 : is_int 0) by (unfold is_int; lia).
  assert (H3 : is_int (4 + -1)) by (unfold is_int; lia).
  assert (H4 : is_int (0 + 0)) by (unfold is_int; lia).
  assert (H5 : is_int (- -1)) by (unfold is_int; lia).
  assert (H6 : is_int (- 0)) by (unfold is_int; lia).
  exact (conj H1 (conj H2 (conj H3 (conj H4 (conj H5 (conj H6
           (proj1 (Vec2D_add_then_sub (mkVec2D 4 0) (dirToVec Left)
                     H1 H2 H3 H4 H5 H6)))))))).
Defined.

(** X8 on the initial layout: line 1, column 5 shows the actor. *)
Lemma draw_at_witness :
  0 <= 1 < Height + 2 /\ 0 <= 5 < Width + 3 /\
  draw Map_init !! Z.to_nat (1 * (Width + 3) + 5) =
  Some (if 5 =? Width + 2 then newline
        else if (1 =? 0) || (1 =? Height + 1) || (5 =? 0) || (5 =? Width + 1)
             then "#"%char
             else glyph (cell Map_init (mkVec2D (5 - 1) (1 - 1)))).
Proof.
  assert (Hl : 0 <= 1 < Height + 2) by (unfold Height; lia).
  assert (Hc : 0 <= 5 < Width + 3) by (unfold Width; lia).
  exact (conj Hl (conj Hc (proj2 (draw_at Map_init 1 5 Hl Hc)))).
Defined.

(** X9 on the initial layout and [board_marked]. *)
Lemma draw_determines_board_witness :
  actor_inv Map_init /\ actor_clear Map_init /\
  actor_inv board_marked /\ actor_clear board_marked /\
  draw Map_init = draw board_marked /\
  _person_pos Map_init = _person_pos board_marked.
Proof.
  assert (Hinv : actor_inv Map_init).
  { apply actor_inv_cells; [by_compute|].
    repeat (constructor; [vm_compute; reflexivity|]). constructor. }
  assert (Hclear : actor_clear Map_init) by reflexivity.
  assert (Hinv' : actor_inv board_marked).
  { apply actor_inv_cells; [by_compute|].
    repeat (constructor; [vm_compute; reflexivity|]). constructor. }
  assert (Hclear' : actor_clear board_marked) by reflexivity.
  assert (Hdraw : draw Map_init = draw board_marked) by reflexivity.
  exact (conj Hinv (conj Hclear (conj Hinv' (conj Hclear' (conj Hdraw
           (proj1 (draw_determines_board Map_init board_marked
                     Hinv Hclear Hinv' Hclear' Hdraw))))))).
Defined.
